(** * PCB component placement (Max-Rects): shallow embedding of
    [pcb_placement.py] and verification of its placement engine.

    Modelling conventions.
    - Python integers are [Z]; [//] is floor division ([Z.div]).
    - [Component] objects are mutable and shared: the placer's
      [placed_components] list holds references to the very objects the
      caller passes in.  Objects therefore live in a store indexed by
      references ([loc]); [placed_components] is a list of references and
      a placement writes the [x], [y] fields of the object in the store.
      Only the placer writes to the store: callers do not mutate a
      component between calls.
    - [float('inf')] against integers is the type [num] ([Fin z] or [Inf]).
    - Python floats and NumPy's [float64] are IEEE 754 binary64 numbers
      ([spec_float] with 53 bits of precision): [np.sqrt] rounds to
      nearest, ties to even, and comparisons involving NaN are false.
    - The engine's functions are total here.  The one exception the
      engine can raise is the [TypeError] of [np.sqrt] on an integer from
      [2 ** 64] on, the value [None] of [np_sqrt]; the calls that raise
      are those of [is_position_valid_raises], [place_component_raises]
      and [force_mikrobus_placement_raises], and there are none on
      boards with sides below [2 ** 31].  A call that raises commits
      nothing more: [place_component] leaves the state as it found it
      and [force_mikrobus_placement] as the anchor left it, the states
      of a failed call.  Here [is_position_valid] accepts no position at
      which [np.sqrt] raises, so a position committed here has passed
      the code's own test. *)

From Stdlib Require Import ZArith QArith Reals Qreals Lia Lra SpecFloat.
From stdpp Require Import base list strings functions.

Local Open Scope Z_scope.

(** ** Data model *)

(** References to component objects. *)
Abbreviation loc := nat (only parsing).

(** Python's [float], NumPy's [float64]. *)
Abbreviation float := spec_float (only parsing).

(** The value of a Python int as a float: the nearest binary64, ties to
    even. *)
Definition float_of_int (n : Z) : float := binary_normalize 53 1024 n 0 false.

(** [max_proximity_distance] is declared [float]; where the code stores
    an int there (the default [0], the crystal's [10]) the field holds the
    int's float value, which is what the comparison with the [float64]
    distance uses. *)
Module Component.
Record t := mk {
  name : string;
  width : Z;
  height : Z;
  x : Z;
  y : Z;
  must_be_on_edge : bool;
  can_place_anywhere : bool;
  proximity_target : option string;
  max_proximity_distance : float
}.

(** [component.x = vx; component.y = vy] *)
Definition set_position (vx vy : Z) (c : t) : t :=
  mk (name c) (width c) (height c) vx vy (must_be_on_edge c)
     (can_place_anywhere c) (proximity_target c) (max_proximity_distance c).
End Component.

Module Rectangle.
Record t := mk { x : Z; y : Z; width : Z; height : Z }.
End Rectangle.

(** The object store: every reference denotes a component object. *)
Abbreviation store := (loc → Component.t) (only parsing).

Record PCBPlacer := mkPlacer {
  board_width : Z;
  board_height : Z;
  placed_components : list loc;
  free_rectangles : list Rectangle.t
}.

(** [PCBPlacer.__init__] *)
Definition init (board_width board_height : Z) : PCBPlacer :=
  mkPlacer board_width board_height []
           [Rectangle.mk 0 0 board_width board_height].

(** Integers compared against [float('inf')]. *)
Inductive num := Fin (z : Z) | Inf.

Definition num_lt (a b : num) : bool :=
  match a, b with
  | Fin u, Fin v => u <? v
  | Fin _, Inf => true
  | Inf, _ => false
  end.

Definition num_eq (a b : num) : bool :=
  match a, b with
  | Fin u, Fin v => u =? v
  | Inf, Inf => true
  | _, _ => false
  end.

(** ** The validator *)

(** The body of the overlap loop: [not (x >= p.x + p.width or ...)]. *)
Definition overlaps_placed (component : Component.t) (x y : Z)
    (placed : Component.t) : bool :=
  negb ((x >=? Component.x placed + Component.width placed)
        || (x + Component.width component <=? Component.x placed)
        || (y >=? Component.y placed + Component.height placed)
        || (y + Component.height component <=? Component.y placed)).

Definition on_edge (self : PCBPlacer) (component : Component.t) (x y : Z) : bool :=
  (x =? 0) || (y =? 0)
  || (x + Component.width component =? board_width self)
  || (y + Component.height component =? board_height self).

(** Python truthiness of [component.proximity_target]: [None] and the
    empty string are both falsy. *)
Definition truthy (s : option string) : option string :=
  match s with
  | Some EmptyString => None
  | other => other
  end.

(** [next((c for c in self.placed_components if c.name == tname), None)] *)
Definition find_target (heap : store) (self : PCBPlacer) (tname : string) : option loc :=
  find (fun l => String.eqb (Component.name (heap l)) tname) (placed_components self).

(** The integer under the square root. *)
Definition center_distance_sq (component : Component.t) (x y : Z)
    (target : Component.t) : Z :=
  let target_center_x := Component.x target + Component.width target / 2 in
  let target_center_y := Component.y target + Component.height target / 2 in
  let component_center_x := x + Component.width component / 2 in
  let component_center_y := y + Component.height component / 2 in
  (component_center_x - target_center_x) ^ 2
  + (component_center_y - target_center_y) ^ 2.

(** [np.sqrt(n)] for a Python int [n].  NumPy takes the int as an
    [int64], or as a [uint64] from [2 ** 63] on, casts it to [float64] and
    takes the correctly rounded square root ([nan] for a negative
    number).  An int outside these two types has no square root loop:
    [np.sqrt] raises [TypeError], here [None]. *)
Definition np_sqrt (n : Z) : option float :=
  if (- 2 ^ 63 <=? n) && (n <? 2 ^ 64)
  then Some (SFsqrt 53 1024 (float_of_int n))
  else None.

(** [distance > component.max_proximity_distance] for the distance of
    [np.sqrt]: a binary64 comparison, false when the bound is [nan]. *)
Definition exceeds (distance d : float) : bool := SFltb d distance.

(** [is_position_valid].  Where [np.sqrt] raises, the call has no result
    and its caller commits nothing from it: the position is not accepted. *)
Definition is_position_valid (heap : store) (self : PCBPlacer)
    (component : Component.t) (x y : Z) : bool :=
  if (x <? 0) || (y <? 0)
     || (x + Component.width component >? board_width self)
     || (y + Component.height component >? board_height self)
  then false
  else if existsb (fun l => overlaps_placed component x y (heap l))
                  (placed_components self)
  then false
  else if Component.must_be_on_edge component && negb (on_edge self component x y)
  then false
  else
    match truthy (Component.proximity_target component) with
    | Some tname =>
        match find_target heap self tname with
        | Some tl =>
            match np_sqrt (center_distance_sq component x y (heap tl)) with
            | Some distance =>
                if exceeds distance (Component.max_proximity_distance component)
                then false else true
            | None => false
            end
        | None => true
        end
    | None => true
    end.

(** The calls of [is_position_valid] that raise: the tests before the
    proximity test pass, the target is placed, and [np.sqrt] raises. *)
Definition is_position_valid_raises (heap : store) (self : PCBPlacer)
    (component : Component.t) (x y : Z) : bool :=
  if (x <? 0) || (y <? 0)
     || (x + Component.width component >? board_width self)
     || (y + Component.height component >? board_height self)
  then false
  else if existsb (fun l => overlaps_placed component x y (heap l))
                  (placed_components self)
  then false
  else if Component.must_be_on_edge component && negb (on_edge self component x y)
  then false
  else
    match truthy (Component.proximity_target component) with
    | Some tname =>
        match find_target heap self tname with
        | Some tl =>
            match np_sqrt (center_distance_sq component x y (heap tl)) with
            | Some _ => false
            | None => true
            end
        | None => false
        end
    | None => false
    end.

(** ** The three heuristics *)

Definition fits (rect : Rectangle.t) (component : Component.t) : bool :=
  (Rectangle.width rect >=? Component.width component)
  && (Rectangle.height rect >=? Component.height component).

Definition leftover_horizontal (rect : Rectangle.t) (component : Component.t) : Z :=
  Rectangle.width rect - Component.width component.

Definition leftover_vertical (rect : Rectangle.t) (component : Component.t) : Z :=
  Rectangle.height rect - Component.height component.

Definition short_side rect component : Z :=
  Z.min (leftover_horizontal rect component) (leftover_vertical rect component).

Definition long_side rect component : Z :=
  Z.max (leftover_horizontal rect component) (leftover_vertical rect component).

Definition area_fit rect component : Z :=
  leftover_horizontal rect component * leftover_vertical rect component.

(** Loop state of a heuristic: [best_x, best_y] and its two running
    minima, in the order the source declares them. *)
Definition best := (Z * Z * num * num)%type.

Definition no_best : best := (-1, -1, Inf, Inf).

Definition bssf_body (heap : store) (self : PCBPlacer) (component : Component.t)
    (st : best) (rect : Rectangle.t) : best :=
  let '(best_x, best_y, best_short_side, best_long_side) := st in
  if fits rect component then
    if is_position_valid heap self component (Rectangle.x rect) (Rectangle.y rect) then
      if num_lt (Fin (short_side rect component)) best_short_side
         || (num_eq (Fin (short_side rect component)) best_short_side
             && num_lt (Fin (long_side rect component)) best_long_side)
      then (Rectangle.x rect, Rectangle.y rect,
            Fin (short_side rect component), Fin (long_side rect component))
      else st
    else st
  else st.

Definition find_best_position_bssf (heap : store) (self : PCBPlacer)
    (component : Component.t) : Z * Z * num :=
  let '(best_x, best_y, best_short_side, best_long_side) :=
    fold_left (bssf_body heap self component) (free_rectangles self) no_best in
  (best_x, best_y, best_short_side).

Definition blsf_body (heap : store) (self : PCBPlacer) (component : Component.t)
    (st : best) (rect : Rectangle.t) : best :=
  let '(best_x, best_y, best_short_side, best_long_side) := st in
  if fits rect component then
    if is_position_valid heap self component (Rectangle.x rect) (Rectangle.y rect) then
      if num_lt (Fin (long_side rect component)) best_long_side
         || (num_eq (Fin (long_side rect component)) best_long_side
             && num_lt (Fin (short_side rect component)) best_short_side)
      then (Rectangle.x rect, Rectangle.y rect,
            Fin (short_side rect component), Fin (long_side rect component))
      else st
    else st
  else st.

Definition find_best_position_blsf (heap : store) (self : PCBPlacer)
    (component : Component.t) : Z * Z * num :=
  let '(best_x, best_y, best_short_side, best_long_side) :=
    fold_left (blsf_body heap self component) (free_rectangles self) no_best in
  (best_x, best_y, best_long_side).

(** For BAF the two minima are [best_area_fit] and [best_short_side]. *)
Definition baf_body (heap : store) (self : PCBPlacer) (component : Component.t)
    (st : best) (rect : Rectangle.t) : best :=
  let '(best_x, best_y, best_area_fit, best_short_side) := st in
  if fits rect component then
    if is_position_valid heap self component (Rectangle.x rect) (Rectangle.y rect) then
      if num_lt (Fin (area_fit rect component)) best_area_fit
         || (num_eq (Fin (area_fit rect component)) best_area_fit
             && num_lt (Fin (short_side rect component)) best_short_side)
      then (Rectangle.x rect, Rectangle.y rect,
            Fin (area_fit rect component), Fin (short_side rect component))
      else st
    else st
  else st.

Definition find_best_position_baf (heap : store) (self : PCBPlacer)
    (component : Component.t) : Z * Z * num :=
  let '(best_x, best_y, best_area_fit, best_short_side) :=
    fold_left (baf_body heap self component) (free_rectangles self) no_best in
  (best_x, best_y, best_area_fit).

(** ** Free-rectangle bookkeeping *)

Definition split_free_rectangle (rect : Rectangle.t) (component : Component.t)
    (x y : Z) : list Rectangle.t :=
  (if x >? Rectangle.x rect
   then [Rectangle.mk (Rectangle.x rect) (Rectangle.y rect)
                      (x - Rectangle.x rect) (Rectangle.height rect)]
   else [])
  ++ (if x + Component.width component <? Rectangle.x rect + Rectangle.width rect
      then [Rectangle.mk (x + Component.width component) (Rectangle.y rect)
                         (Rectangle.x rect + Rectangle.width rect - x
                          - Component.width component)
                         (Rectangle.height rect)]
      else [])
  ++ (if y >? Rectangle.y rect
      then [Rectangle.mk (Rectangle.x rect) (Rectangle.y rect)
                         (Rectangle.width rect) (y - Rectangle.y rect)]
      else [])
  ++ (if y + Component.height component <? Rectangle.y rect + Rectangle.height rect
      then [Rectangle.mk (Rectangle.x rect) (y + Component.height component)
                         (Rectangle.width rect)
                         (Rectangle.y rect + Rectangle.height rect - y
                          - Component.height component)]
      else []).

(** The containment test of the pruning loop: [rect2] contains [rect1]. *)
Definition contains (rect2 rect1 : Rectangle.t) : bool :=
  (Rectangle.x rect2 <=? Rectangle.x rect1)
  && (Rectangle.y rect2 <=? Rectangle.y rect1)
  && (Rectangle.x rect2 + Rectangle.width rect2
      >=? Rectangle.x rect1 + Rectangle.width rect1)
  && (Rectangle.y rect2 + Rectangle.height rect2
      >=? Rectangle.y rect1 + Rectangle.height rect1).

(** Inner loop: [for j, rect2 in enumerate(rectangles)] from index [j]. *)
Fixpoint is_redundant (i : nat) (rect1 : Rectangle.t) (j : nat)
    (rectangles : list Rectangle.t) : bool :=
  match rectangles with
  | [] => false
  | rect2 :: rest =>
      if negb (Nat.eqb i j) && contains rect2 rect1 then true
      else is_redundant i rect1 (S j) rest
  end.

(** Outer loop: [for i, rect1 in enumerate(rectangles)] from index [i]. *)
Fixpoint prune_from (rectangles : list Rectangle.t) (i : nat)
    (todo : list Rectangle.t) : list Rectangle.t :=
  match todo with
  | [] => []
  | rect1 :: rest =>
      if is_redundant i rect1 0 rectangles
      then prune_from rectangles (S i) rest
      else rect1 :: prune_from rectangles (S i) rest
  end.

Definition remove_redundant_rectangles (rectangles : list Rectangle.t)
    : list Rectangle.t :=
  prune_from rectangles 0 rectangles.

(** The intersection test of the update loop. *)
Definition intersects (rect : Rectangle.t) (component : Component.t) (x y : Z) : bool :=
  (x <? Rectangle.x rect + Rectangle.width rect)
  && (x + Component.width component >? Rectangle.x rect)
  && (y <? Rectangle.y rect + Rectangle.height rect)
  && (y + Component.height component >? Rectangle.y rect).

(** Body of the update loop: what one pool rectangle contributes to
    [new_free_rectangles]. *)
Definition split_or_keep (component : Component.t) (x y : Z)
    (rect : Rectangle.t) : list Rectangle.t :=
  if intersects rect component x y
  then split_free_rectangle rect component x y
  else [rect].

(** The update loop shared by both commit sites. *)
Definition update_free_rectangles (free : list Rectangle.t)
    (component : Component.t) (x y : Z) : list Rectangle.t :=
  remove_redundant_rectangles (flat_map (split_or_keep component x y) free).

(** The commit: write the position into the object, append the reference,
    update the pool. *)
Definition commit (heap : store) (self : PCBPlacer) (component : loc) (x y : Z)
    : store * PCBPlacer :=
  let heap' := <[component := Component.set_position x y (heap component)]> heap in
  (heap',
   mkPlacer (board_width self) (board_height self)
            (placed_components self ++ [component])
            (update_free_rectangles (free_rectangles self) (heap' component) x y)).

(** ** The engine *)

Definition heuristics : list (store → PCBPlacer → Component.t → Z * Z * num) :=
  [find_best_position_bssf; find_best_position_blsf; find_best_position_baf].

(** Body of [for heuristic in heuristics]. *)
Definition choose_body (heap : store) (self : PCBPlacer) (component : Component.t)
    (st : Z * Z * num)
    (heuristic : store → PCBPlacer → Component.t → Z * Z * num) : Z * Z * num :=
  let '(best_x, best_y, best_score) := st in
  let '(x, y, score) := heuristic heap self component in
  if negb (x =? -1) && num_lt score best_score then (x, y, score) else st.

Definition choose (heap : store) (self : PCBPlacer) (component : Component.t)
    : Z * Z * num :=
  fold_left (choose_body heap self component) heuristics (-1, -1, Inf).

Definition place_component (heap : store) (self : PCBPlacer) (component : loc)
    : bool * (store * PCBPlacer) :=
  let '(best_x, best_y, best_score) := choose heap self (heap component) in
  if best_x =? -1 then (false, (heap, self))
  else (true, commit heap self component best_x best_y).

(** [place_component] raises when the validator does at the corner of
    some pool rectangle that is large enough: each heuristic validates
    them all.  Nothing has been written by then. *)
Definition place_component_raises (heap : store) (self : PCBPlacer)
    (component : loc) : bool :=
  existsb (fun rect =>
             fits rect (heap component)
             && is_position_valid_raises heap self (heap component)
                  (Rectangle.x rect) (Rectangle.y rect))
          (free_rectangles self).

(** ** Paired placement *)

Definition check_mikrobus_parallel_constraint (self : PCBPlacer)
    (mb1 mb2 : Component.t) : bool :=
  let mb1_on_left := Component.x mb1 =? 0 in
  let mb1_on_right := Component.x mb1 + Component.width mb1 =? board_width self in
  let mb1_on_top := Component.y mb1 =? 0 in
  let mb1_on_bottom := Component.y mb1 + Component.height mb1 =? board_height self in
  let mb2_on_left := Component.x mb2 =? 0 in
  let mb2_on_right := Component.x mb2 + Component.width mb2 =? board_width self in
  let mb2_on_top := Component.y mb2 =? 0 in
  let mb2_on_bottom := Component.y mb2 + Component.height mb2 =? board_height self in
  let opposite_horizontal :=
    (mb1_on_left && mb2_on_right) || (mb1_on_right && mb2_on_left) in
  let opposite_vertical :=
    (mb1_on_top && mb2_on_bottom) || (mb1_on_bottom && mb2_on_top) in
  opposite_horizontal || opposite_vertical.

(** [[v for v in range(46) if v % 5 == 0]] *)
Definition grid : list Z :=
  filter (fun v => v mod 5 = 0) (map Z.of_nat (seq 0 46)).

Definition target_positions (self : PCBPlacer) (mb1 : Component.t) : list (Z * Z) :=
  if Component.x mb1 =? 0 then map (fun y => (45, y)) grid
  else if Component.x mb1 + Component.width mb1 =? board_width self
  then map (fun y => (0, y)) grid
  else if Component.y mb1 =? 0 then map (fun x => (x, 45)) grid
  else if Component.y mb1 + Component.height mb1 =? board_height self
  then map (fun x => (x, 0)) grid
  else [].

(** [for x, y in target_positions: ...; return False] *)
Fixpoint try_positions (heap : store) (self : PCBPlacer) (mb2 : loc)
    (positions : list (Z * Z)) : bool * (store * PCBPlacer) :=
  match positions with
  | [] => (false, (heap, self))
  | (x, y) :: rest =>
      if is_position_valid heap self (heap mb2) x y
      then (true, commit heap self mb2 x y)
      else try_positions heap self mb2 rest
  end.

Definition force_mikrobus_placement (heap : store) (self : PCBPlacer)
    (mb1 mb2 : loc) : bool * (store * PCBPlacer) :=
  let '(placed, (heap1, self1)) := place_component heap self mb1 in
  if negb placed then (false, (heap1, self1))
  else try_positions heap1 self1 mb2 (target_positions self1 (heap1 mb1)).

(** The loop over the candidates raises when the validator does before
    it accepts a candidate. *)
Fixpoint try_positions_raises (heap : store) (self : PCBPlacer) (mb2 : loc)
    (positions : list (Z * Z)) : bool :=
  match positions with
  | [] => false
  | (x, y) :: rest =>
      is_position_valid_raises heap self (heap mb2) x y
      || (negb (is_position_valid heap self (heap mb2) x y)
          && try_positions_raises heap self mb2 rest)
  end.

(** [force_mikrobus_placement] raises with the anchor's placement, or,
    the anchor placed, with the loop over the candidates. *)
Definition force_mikrobus_placement_raises (heap : store) (self : PCBPlacer)
    (mb1 mb2 : loc) : bool :=
  place_component_raises heap self mb1
  || (let '(placed, (heap1, self1)) := place_component heap self mb1 in
      placed
      && try_positions_raises heap1 self1 mb2 (target_positions self1 (heap1 mb1))).

(** ** The demonstration run *)

(** [create_components]: the five objects, at references 0 to 4. *)
Definition usb : Component.t :=
  Component.mk "USB_CONNECTOR" 5 5 0 0 true true None (float_of_int 0).
Definition mikrobus1 : Component.t :=
  Component.mk "MIKROBUS_CONNECTOR_1" 5 5 0 0 true true None (float_of_int 0).
Definition mikrobus2 : Component.t :=
  Component.mk "MIKROBUS_CONNECTOR_2" 5 5 0 0 true true None (float_of_int 0).
Definition microcontroller : Component.t :=
  Component.mk "MICROCONTROLLER" 5 5 0 0 false true None (float_of_int 0).
Definition crystal : Component.t :=
  Component.mk "CRYSTAL" 5 5 0 0 false true (Some "MICROCONTROLLER") (float_of_int 10).

Definition create_components : store :=
  fun l =>
    match l with
    | 0%nat => usb
    | 1%nat => mikrobus1
    | 2%nat => mikrobus2
    | 3%nat => microcontroller
    | _ => crystal
    end.

(** [solve_pcb_placement]: [None] when a phase fails. *)
Definition solve_pcb_placement : option (store * PCBPlacer) :=
  let placer := init 50 50 in
  let components := create_components in
  let '(ok, (h1, p1)) := place_component components placer 0%nat in
  if negb ok then None else
  let '(ok, (h2, p2)) := force_mikrobus_placement h1 p1 1%nat 2%nat in
  if negb ok then None else
  let '(ok, (h3, p3)) := place_component h2 p2 3%nat in
  if negb ok then None else
  let '(ok, (h4, p4)) := place_component h3 p3 4%nat in
  if negb ok then None else Some (h4, p4).

(** ** Sequences of engine calls *)

Inductive call :=
| Place (component : loc)
| PlacePair (mb1 mb2 : loc).

Definition exec (st : store * PCBPlacer) (c : call) : store * PCBPlacer :=
  match c with
  | Place component => (place_component st.1 st.2 component).2
  | PlacePair mb1 mb2 => (force_mikrobus_placement st.1 st.2 mb1 mb2).2
  end.

Definition run (calls : list call) (st : store * PCBPlacer) : store * PCBPlacer :=
  fold_left exec calls st.

(** The objects a call places. *)
Definition call_objects (c : call) : list loc :=
  match c with
  | Place component => [component]
  | PlacePair mb1 mb2 => [mb1; mb2]
  end.

(** The lifecycle rule of components, checked along a run: no call is
    handed an object that is already in the placed list (nor the same
    object twice), so that no placed object is ever moved. *)
Fixpoint places_once (calls : list call) (st : store * PCBPlacer) : bool :=
  match calls with
  | [] => true
  | c :: rest =>
      bool_decide (NoDup (call_objects c))
      && forallb (fun l => bool_decide (l ∉ placed_components st.2)) (call_objects c)
      && places_once rest (exec st c)
  end.

(** The call raises. *)
Definition call_raises (st : store * PCBPlacer) (c : call) : bool :=
  match c with
  | Place component => place_component_raises st.1 st.2 component
  | PlacePair mb1 mb2 => force_mikrobus_placement_raises st.1 st.2 mb1 mb2
  end.

(** Some call of the run raises, in the state the calls before it leave. *)
Fixpoint run_raises (calls : list call) (st : store * PCBPlacer) : bool :=
  match calls with
  | [] => false
  | c :: rest => call_raises st c || run_raises rest (exec st c)
  end.

(** ** Geometry of the specification *)

(** The board is a grid of unit cells (as [print_board_visualization]
    draws it); the cell [(px, py)] lies in the box at [(x, y)] of size
    [w] by [h]. *)
Definition in_box (x y w h px py : Z) : Prop :=
  x <= px < x + w ∧ y <= py < y + h.

Definition in_component (c : Component.t) (px py : Z) : Prop :=
  in_box (Component.x c) (Component.y c) (Component.width c) (Component.height c) px py.

Definition in_rectangle (r : Rectangle.t) (px py : Z) : Prop :=
  in_box (Rectangle.x r) (Rectangle.y r) (Rectangle.width r) (Rectangle.height r) px py.

Definition in_board (self : PCBPlacer) (px py : Z) : Prop :=
  in_box 0 0 (board_width self) (board_height self) px py.

Definition within_board (self : PCBPlacer) (c : Component.t) : Prop :=
  0 <= Component.x c ∧ 0 <= Component.y c
  ∧ Component.x c + Component.width c <= board_width self
  ∧ Component.y c + Component.height c <= board_height self.

(** The [no_overlap] test of [validate_all_constraints]. *)
Definition separated (a b : Component.t) : Prop :=
  Component.x a >= Component.x b + Component.width b
  ∨ Component.x a + Component.width a <= Component.x b
  ∨ Component.y a >= Component.y b + Component.height b
  ∨ Component.y a + Component.height a <= Component.y b.

(** No cell lies in both rectangles: touching edges are allowed. *)
Definition interiors_disjoint (a b : Component.t) : Prop :=
  ∀ px py, ¬ (in_component a px py ∧ in_component b px py).

Definition placed_invariant (heap : store) (self : PCBPlacer) : Prop :=
  (∀ l, l ∈ placed_components self → within_board self (heap l))
  ∧ (∀ l1 l2, l1 ∈ placed_components self → l2 ∈ placed_components self →
       l1 ≠ l2 → separated (heap l1) (heap l2)).

Definition pool_disjoint_from_placed (heap : store) (self : PCBPlacer) : Prop :=
  ∀ r l px py, r ∈ free_rectangles self → l ∈ placed_components self →
    ¬ (in_rectangle r px py ∧ in_component (heap l) px py).

Definition board_covered (heap : store) (self : PCBPlacer) : Prop :=
  ∀ px py, in_board self px py →
    (∃ r, r ∈ free_rectangles self ∧ in_rectangle r px py)
    ∨ (∃ l, l ∈ placed_components self ∧ in_component (heap l) px py).

(** No rectangle of the list is contained in one at another position. *)
Fixpoint antichain (l : list Rectangle.t) : Prop :=
  match l with
  | [] => True
  | r :: rest =>
      (∀ r', r' ∈ rest → contains r r' = false ∧ contains r' r = false)
      ∧ antichain rest
  end.

(** ** Specification of the heuristics *)

(** A pool rectangle the heuristics consider: large enough, and the
    validator accepts its top-left corner. *)
Definition candidate (heap : store) (self : PCBPlacer) (component : Component.t)
    (rect : Rectangle.t) : bool :=
  fits rect component
  && is_position_valid heap self component (Rectangle.x rect) (Rectangle.y rect).

Definition lex_lt (a b : Z * Z) : Prop := a.1 < b.1 ∨ (a.1 = b.1 ∧ a.2 < b.2).
Definition lex_le (a b : Z * Z) : Prop := a.1 < b.1 ∨ (a.1 = b.1 ∧ a.2 <= b.2).

Definition bssf_key (component : Component.t) (rect : Rectangle.t) : Z * Z :=
  (short_side rect component, long_side rect component).
Definition blsf_key (component : Component.t) (rect : Rectangle.t) : Z * Z :=
  (long_side rect component, short_side rect component).
Definition baf_key (component : Component.t) (rect : Rectangle.t) : Z * Z :=
  (area_fit rect component, short_side rect component).

(** What a heuristic returns on a pool: the sentinel when no rectangle is
    a candidate, otherwise the top-left corner of the first candidate, in
    pool order, whose (score, tie-break) pair is lexicographically least. *)
Inductive first_best (key : Rectangle.t → Z * Z) (ok : Rectangle.t → bool)
    (pool : list Rectangle.t) : Z * Z * num → Prop :=
| first_best_none :
    (∀ r, r ∈ pool → ok r = false) →
    first_best key ok pool (-1, -1, Inf)
| first_best_some pre rect post :
    pool = pre ++ rect :: post →
    ok rect = true →
    (∀ r, r ∈ pre → ok r = true → lex_lt (key rect) (key r)) →
    (∀ r, r ∈ post → ok r = true → lex_le (key rect) (key r)) →
    first_best key ok pool (Rectangle.x rect, Rectangle.y rect, Fin (key rect).1).

(** The generic loop all three heuristics instantiate, with the running
    minima ordered (score, tie-break). *)
Definition scan_body (key : Rectangle.t → Z * Z) (ok : Rectangle.t → bool)
    (st : best) (rect : Rectangle.t) : best :=
  let '(best_x, best_y, best_1, best_2) := st in
  if ok rect then
    if num_lt (Fin (key rect).1) best_1
       || (num_eq (Fin (key rect).1) best_1 && num_lt (Fin (key rect).2) best_2)
    then (Rectangle.x rect, Rectangle.y rect, Fin (key rect).1, Fin (key rect).2)
    else st
  else st.

(** Loop invariant of [scan_body] after the rectangles of [l]. *)
Definition scan_inv (key : Rectangle.t → Z * Z) (ok : Rectangle.t → bool)
    (l : list Rectangle.t) (st : best) : Prop :=
  (st = no_best ∧ ∀ r, r ∈ l → ok r = false)
  ∨ (∃ pre rect post,
       l = pre ++ rect :: post ∧ ok rect = true
       ∧ st = (Rectangle.x rect, Rectangle.y rect, Fin (key rect).1, Fin (key rect).2)
       ∧ (∀ r, r ∈ pre → ok r = true → lex_lt (key rect) (key r))
       ∧ (∀ r, r ∈ post → ok r = true → lex_le (key rect) (key r))).

(** A heuristic's result is a position, not the [-1] sentinel. *)
Definition found (res : Z * Z * num) : bool := negb (res.1.1 =? -1).

(** One iteration of the loop over the heuristics, on the heuristic's
    result. *)
Definition pick (st r : Z * Z * num) : Z * Z * num :=
  let '(best_x, best_y, best_score) := st in
  let '(x, y, score) := r in
  if negb (x =? -1) && num_lt score best_score then (x, y, score) else st.

(** A result that is a position carries an integer score. *)
Definition finite_if_found (r : Z * Z * num) : Prop :=
  found r = true → ∃ z, r.2 = Fin z.

(** The pruning loops, with the list split at the current index: [rect1]
    is dropped when a rectangle before or after it contains it. *)
Fixpoint prune_split (before todo : list Rectangle.t) : list Rectangle.t :=
  match todo with
  | [] => []
  | rect1 :: rest =>
      if existsb (fun rect2 => contains rect2 rect1) (before ++ rest)
      then prune_split (before ++ [rect1]) rest
      else rect1 :: prune_split (before ++ [rect1]) rest
  end.

(** ** Specification of the proximity rule *)


(** The validator's proximity test passes for [component] put at
    [(x, y)] against [target]: [np.sqrt] returns a distance, and that
    distance is not greater than [max_proximity_distance]. *)
Definition within_proximity (component : Component.t) (x y : Z)
    (target : Component.t) : Prop :=
  ∃ distance,
    np_sqrt (center_distance_sq component x y target) = Some distance
    ∧ exceeds distance (Component.max_proximity_distance component) = false.






(** A board with sides below [2 ** 31] holding its placed components,
    and components without negative sizes. *)
Definition small_board (heap : store) (self : PCBPlacer) : Prop :=
  board_width self < 2 ^ 31 ∧ board_height self < 2 ^ 31
  ∧ (∀ l, 0 <= Component.width (heap l) ∧ 0 <= Component.height (heap l))
  ∧ ∀ l, l ∈ placed_components self → within_board self (heap l).

(** The three parts of the free-pool invariant: the two of the
    specification, and the antichain property that makes pruning lossless. *)
Definition pool_invariant (heap : store) (self : PCBPlacer) : Prop :=
  pool_disjoint_from_placed heap self
  ∧ board_covered heap self
  ∧ antichain (free_rectangles self).

(** Half-perimeter of a rectangle: grows strictly under strict containment. *)
Definition extent (r : Rectangle.t) : Z := Rectangle.width r + Rectangle.height r.

(** ** Scenarios *)

(** The demonstration's calls, in order. *)
Definition demo_calls : list call :=
  [Place 0%nat; PlacePair 1%nat 2%nat; Place 3%nat; Place 4%nat].


(** A partner connector wider than the hard-coded grid allows for. *)
Definition wide_partner : Component.t :=
  Component.mk "MIKROBUS_CONNECTOR_2" 10 10 0 0 true true None (float_of_int 0).

Definition wide_pair : loc → Component.t :=
  fun l => match l with 1%nat => mikrobus1 | _ => wide_partner end.

(** A component larger than the board. *)
Definition oversized : loc → Component.t :=
  fun _ => Component.mk "OVERSIZED" 60 60 0 0 false true None (float_of_int 0).






(** ** The reporting checks *)

(** [within_bounds] in [validate_all_constraints]. *)
Definition within_bounds (placer : PCBPlacer) (comp : Component.t) : bool :=
  (0 <=? Component.x comp) && (0 <=? Component.y comp)
  && (Component.x comp + Component.width comp <=? board_width placer)
  && (Component.y comp + Component.height comp <=? board_height placer).

(** [no_overlap] in [validate_all_constraints]. *)
Definition no_overlap (comp1 comp2 : Component.t) : bool :=
  (Component.x comp1 >=? Component.x comp2 + Component.width comp2)
  || (Component.x comp1 + Component.width comp1 <=? Component.x comp2)
  || (Component.y comp1 >=? Component.y comp2 + Component.height comp2)
  || (Component.y comp1 + Component.height comp1 <=? Component.y comp2).

(** Section 1, the loop over the placed components. *)
Definition boundary_check (placer : PCBPlacer) (placed : list Component.t) : bool :=
  forallb (within_bounds placer) placed.

(** Section 2, the loops over [comp1] and the components after it. *)
Fixpoint overlap_check (placed : list Component.t) : bool :=
  match placed with
  | [] => true
  | comp1 :: rest => forallb (no_overlap comp1) rest && overlap_check rest
  end.

(** Section 3, the loop over the edge components. *)
Definition edge_check (placer : PCBPlacer) (placed : list Component.t) : bool :=
  forallb (fun comp => on_edge placer comp (Component.x comp) (Component.y comp))
          (List.filter Component.must_be_on_edge placed).

(** [validate_all_constraints] without its printing; [None] is the
    [StopIteration] of a [next(...)] that finds no component of the name,
    or the [TypeError] of [np.sqrt].  [distance <= 10] is a binary64
    comparison. *)
Definition validate_all_constraints (heap : store) (placer : PCBPlacer) : option bool :=
  let placed := map heap (placed_components placer) in
  let all_valid := true in
  let all_valid := all_valid && boundary_check placer placed in
  let all_valid := all_valid && overlap_check placed in
  let all_valid := all_valid && edge_check placer placed in
  crystal ← find_target heap placer "CRYSTAL";
  microcontroller ← find_target heap placer "MICROCONTROLLER";
  distance ← np_sqrt (center_distance_sq (heap crystal) (Component.x (heap crystal))
                        (Component.y (heap crystal)) (heap microcontroller));
  let within_proximity := SFleb distance (float_of_int 10) in
  let all_valid := all_valid && within_proximity in
  mb1 ← find_target heap placer "MIKROBUS_CONNECTOR_1";
  mb2 ← find_target heap placer "MIKROBUS_CONNECTOR_2";
  let is_parallel := check_mikrobus_parallel_constraint placer (heap mb1) (heap mb2) in
  Some (all_valid && is_parallel).

(** What sections 4 and 5 alone decide. *)
Definition proximity_and_parallel (heap : store) (placer : PCBPlacer) : option bool :=
  crystal ← find_target heap placer "CRYSTAL";
  microcontroller ← find_target heap placer "MICROCONTROLLER";
  distance ← np_sqrt (center_distance_sq (heap crystal) (Component.x (heap crystal))
                        (Component.y (heap crystal)) (heap microcontroller));
  mb1 ← find_target heap placer "MIKROBUS_CONNECTOR_1";
  mb2 ← find_target heap placer "MIKROBUS_CONNECTOR_2";
  Some (SFleb distance (float_of_int 10)
        && check_mikrobus_parallel_constraint placer (heap mb1) (heap mb2)).

(** ** Further invariants *)

(** Every placed component that must be on an edge touches one. *)
Definition edge_invariant (heap : store) (self : PCBPlacer) : Prop :=
  ∀ l, l ∈ placed_components self →
    Component.must_be_on_edge (heap l) = true →
    on_edge self (heap l) (Component.x (heap l)) (Component.y (heap l)) = true.

(** Two component records that differ at most in their position. *)
Definition same_but_position (a b : Component.t) : Prop :=
  Component.name a = Component.name b
  ∧ Component.width a = Component.width b
  ∧ Component.height a = Component.height b
  ∧ Component.must_be_on_edge a = Component.must_be_on_edge b
  ∧ Component.can_place_anywhere a = Component.can_place_anywhere b
  ∧ Component.proximity_target a = Component.proximity_target b
  ∧ Component.max_proximity_distance a = Component.max_proximity_distance b.

(** A rectangle lies inside the board. *)
Definition inside_board (self : PCBPlacer) (r : Rectangle.t) : Prop :=
  0 <= Rectangle.x r ∧ 0 <= Rectangle.y r
  ∧ Rectangle.x r + Rectangle.width r <= board_width self
  ∧ Rectangle.y r + Rectangle.height r <= board_height self.

(** The demonstration's components and a 42 by 42 block at reference 5. *)
Definition with_block : loc → Component.t :=
  fun l =>
    match l with
    | 5%nat => Component.mk "BLOCK" 42 42 0 0 false true None (float_of_int 0)
    | _ => create_components l
    end.

(** The demonstration after its first phase, and the remaining calls. *)
Definition after_usb : (loc → Component.t) * PCBPlacer :=
  exec (create_components, init 50 50) (Place 0%nat).

Definition remaining_calls : list call :=
  [PlacePair 1%nat 2%nat; Place 3%nat; Place 4%nat].

(** The first three phases of the demonstration, with the block at hand. *)
Definition before_block : (loc → Component.t) * PCBPlacer :=
  run [Place 0%nat; PlacePair 1%nat 2%nat; Place 3%nat] (with_block, init 50 50).

(** Equality of rectangles is decidable. *)
Global Instance rectangle_eq_dec : EqDecision Rectangle.t.
Proof. solve_decision. Defined.

(** A list of free rectangles in which the second lies inside the first. *)
Definition nested_rectangles : list Rectangle.t :=
  [Rectangle.mk 0 0 5 5; Rectangle.mk 1 1 2 2; Rectangle.mk 3 3 5 5].

(** ** The text picture *)

From Stdlib Require Import Ascii.

(** [component_chars.get(comp.name, '?')] *)
Definition component_chars (name : string) : ascii :=
  if String.eqb name "USB_CONNECTOR" then "U"%char
  else if String.eqb name "MICROCONTROLLER" then "M"%char
  else if String.eqb name "CRYSTAL" then "C"%char
  else if String.eqb name "MIKROBUS_CONNECTOR_1" then "1"%char
  else if String.eqb name "MIKROBUS_CONNECTOR_2" then "2"%char
  else "?"%char.

(** [range(a, b)] *)
Definition range (a b : Z) : list Z :=
  map (fun i => a + Z.of_nat i) (seq 0 (Z.to_nat (b - a))).

(** [range(0, b, 5)] *)
Definition range_by_5 (b : Z) : list Z :=
  map (fun k => 5 * Z.of_nat k) (seq 0 (Z.to_nat ((b + 4) / 5))).

(** [[['.' for _ in range(board_width)] for _ in range(board_height)]] *)
Definition empty_grid (placer : PCBPlacer) : list (list ascii) :=
  replicate (Z.to_nat (board_height placer))
            (replicate (Z.to_nat (board_width placer)) "."%char).

(** The guarded assignment [grid[y][x] = char].  Under the guard both
    indices are within the grid, so the assignment never raises. *)
Definition set_cell (placer : PCBPlacer) (grid : list (list ascii)) (x y : Z)
    (char : ascii) : list (list ascii) :=
  if (0 <=? x) && (x <? board_width placer)
     && (0 <=? y) && (y <? board_height placer)
  then match grid !! Z.to_nat y with
       | Some row => <[Z.to_nat y := <[Z.to_nat x := char]> row]> grid
       | None => grid
       end
  else grid.

(** Body of [for comp in placer.placed_components]. *)
Definition paint_component (placer : PCBPlacer) (grid : list (list ascii))
    (comp : Component.t) : list (list ascii) :=
  let char := component_chars (Component.name comp) in
  fold_left
    (fun grid y =>
       fold_left (fun grid x => set_cell placer grid x y char)
                 (range (Component.x comp) (Component.x comp + Component.width comp))
                 grid)
    (range (Component.y comp) (Component.y comp + Component.height comp))
    grid.

(** The grid once every placed component is drawn. *)
Definition board_grid (heap : store) (placer : PCBPlacer) : list (list ascii) :=
  fold_left (paint_component placer) (map heap (placed_components placer))
            (empty_grid placer).

(** ["+" + "-" * board_width + "+"] *)
Definition border (placer : PCBPlacer) : string :=
  ("+" ++ String.string_of_list_ascii (replicate (Z.to_nat (board_width placer)) "-"%char)
   ++ "+")%string.

(** [print_board_visualization]: the lines it prints, in order. *)
Definition print_board_visualization (heap : store) (placer : PCBPlacer) : list string :=
  let grid := board_grid heap placer in
  ["\n=== Board Layout (50x50) ===";
   "Legend: U=USB, M=Microcontroller, C=Crystal, 1=MikroBus1, 2=MikroBus2, .=Empty";
   border placer]
  ++ map (fun y => ("|" ++ String.string_of_list_ascii (default [] (grid !! Z.to_nat y))
                    ++ "|")%string)
         (range_by_5 (board_height placer))
  ++ [border placer].

(** The character at column [x] of row [y] of a grid. *)
Definition grid_at (grid : list (list ascii)) (x y : Z) : option ascii :=
  row ← grid !! Z.to_nat y; row !! Z.to_nat x.

(** The cell [(px, py)] lies in the component's rectangle. *)
Definition covers (comp : Component.t) (px py : Z) : bool :=
  (Component.x comp <=? px) && (px <? Component.x comp + Component.width comp)
  && (Component.y comp <=? py) && (py <? Component.y comp + Component.height comp).

(** The grid has the board's dimensions. *)
Definition grid_shape (placer : PCBPlacer) (grid : list (list ascii)) : Prop :=
  length grid = Z.to_nat (board_height placer)
  ∧ ∀ i row, grid !! i = Some row → length row = Z.to_nat (board_width placer).

(** What the drawing loops leave in a cell that held [ch]: the character
    of the last component, in list order, whose rectangle has the cell. *)
Definition shown_from (ch : ascii) (comps : list Component.t) (px py : Z) : ascii :=
  fold_left (fun ch comp =>
               if covers comp px py then component_chars (Component.name comp) else ch)
            comps ch.

(** * Proofs *)

(** Split every conjunction and disjunction among the hypotheses. *)
Ltac break_cases :=
  repeat match goal with
         | H : _ ∧ _ |- _ => destruct H
         | H : _ ∨ _ |- _ => destruct H
         end.

(** ** Pruning *)

Section Pruning.

Implicit Types (r : Rectangle.t) (l before todo : list Rectangle.t).

Lemma existsb_false {A} (f : A → bool) (l : list A) :
  existsb f l = false ↔ ∀ a, a ∈ l → f a = false.
Proof.
  induction l as [|a l IH]; simpl.
  - split; [intros _ a Ha; inversion Ha | done].
  - rewrite orb_false_iff, IH. split.
    + intros [Ha Hl] b Hb. apply elem_of_cons in Hb as [->|Hb]; auto.
    + intros H. split; [apply H; left | intros b Hb; apply H; by right].
Qed.

Lemma contains_spec (rect2 rect1 : Rectangle.t) :
  contains rect2 rect1 = true ↔
  Rectangle.x rect2 <= Rectangle.x rect1
  ∧ Rectangle.y rect2 <= Rectangle.y rect1
  ∧ Rectangle.x rect1 + Rectangle.width rect1
    <= Rectangle.x rect2 + Rectangle.width rect2
  ∧ Rectangle.y rect1 + Rectangle.height rect1
    <= Rectangle.y rect2 + Rectangle.height rect2.
Proof.
  unfold contains. rewrite !andb_true_iff, !Z.leb_le, !Z.geb_le. tauto.
Qed.

Lemma contains_refl r : contains r r = true.
Proof. apply contains_spec. lia. Qed.

Lemma contains_trans (r1 r2 r3 : Rectangle.t) :
  contains r1 r2 = true → contains r2 r3 = true → contains r1 r3 = true.
Proof. rewrite !contains_spec. lia. Qed.

Lemma contains_antisym (r1 r2 : Rectangle.t) :
  contains r1 r2 = true → contains r2 r1 = true → r1 = r2.
Proof.
  rewrite !contains_spec. destruct r1, r2; simpl. intros H1 H2.
  f_equal; lia.
Qed.

(** Past index [i], the inner loop is a plain search. *)
Lemma is_redundant_past l i (rect1 : Rectangle.t) j :
  (i < j)%nat →
  is_redundant i rect1 j l = existsb (fun rect2 => contains rect2 rect1) l.
Proof.
  revert j. induction l as [|rect2 l IH]; intros j Hij; simpl; [done|].
  destruct (Nat.eqb_spec i j) as [->|_]; [lia|]. simpl.
  destruct (contains rect2 rect1); [done|]. apply IH. lia.
Qed.

(** The inner loop run on a list split at index [i] skips position [i]. *)
Lemma is_redundant_split before (rect1 : Rectangle.t) rest j :
  is_redundant (j + length before) rect1 j (before ++ rect1 :: rest)
  = existsb (fun rect2 => contains rect2 rect1) (before ++ rest).
Proof.
  revert j. induction before as [|a before IH]; intros j; simpl.
  - rewrite Nat.add_0_r, Nat.eqb_refl. simpl. apply is_redundant_past. lia.
  - destruct (Nat.eqb_spec (j + S (length before)) j) as [E|_]; [lia|]. simpl.
    destruct (contains a rect1); [done|].
    replace (j + S (length before))%nat with (S j + length before)%nat by lia.
    apply IH.
Qed.

Lemma prune_from_split todo before :
  prune_from (before ++ todo) (length before) todo = prune_split before todo.
Proof.
  revert before. induction todo as [|rect1 rest IH]; intros before; simpl; [done|].
  pose proof (is_redundant_split before rect1 rest 0) as E.
  simpl in E. rewrite E.
  specialize (IH (before ++ [rect1])).
  rewrite <- app_assoc, length_app in IH. simpl in IH.
  rewrite Nat.add_1_r in IH. rewrite IH. done.
Qed.

Lemma remove_redundant_rectangles_split l :
  remove_redundant_rectangles l = prune_split [] l.
Proof. exact (prune_from_split l []). Qed.

(** A rectangle survives exactly when some occurrence of it has no
    container at any other position. *)
Lemma prune_split_elem r todo before :
  r ∈ prune_split before todo ↔
  ∃ p q, todo = p ++ r :: q
         ∧ existsb (fun rect2 => contains rect2 r) (before ++ p ++ q) = false.
Proof.
  revert before. induction todo as [|a rest IH]; intros before; simpl.
  - split; [intros H; inversion H | intros (p & q & H & _); by destruct p].
  - split.
    + intros H.
      destruct (existsb _ (before ++ rest)) eqn:E.
      * apply IH in H as (p & q & -> & H). exists (a :: p), q. split; [done|].
        rewrite <- H. f_equal. by rewrite <- app_assoc.
      * apply elem_of_cons in H as [->|H].
        -- by exists [], rest.
        -- apply IH in H as (p & q & -> & H). exists (a :: p), q. split; [done|].
           rewrite <- H. f_equal. by rewrite <- app_assoc.
    + intros (p & q & Hsplit & H).
      destruct p as [|b p]; simpl in Hsplit; injection Hsplit as <- ->.
      * simpl in H. rewrite H. left.
      * assert (r ∈ prune_split (before ++ [a]) (p ++ r :: q)) as Hin.
        { apply IH. exists p, q. split; [done|].
          rewrite <- H. f_equal. by rewrite <- app_assoc. }
        destruct (existsb (fun rect2 => contains rect2 a) _); [done | by right].
Qed.

Lemma prune_split_subset r todo before :
  r ∈ prune_split before todo → r ∈ todo.
Proof.
  intros (p & q & -> & _)%prune_split_elem.
  apply elem_of_app. right. left.
Qed.

Lemma prune_split_antichain todo before : antichain (prune_split before todo).
Proof.
  revert before. induction todo as [|a rest IH]; intros before; simpl; [done|].
  destruct (existsb _ (before ++ rest)) eqn:E; [apply IH|].
  simpl. split; [|apply IH].
  intros r' (p & q & -> & H)%prune_split_elem. split.
  - eapply existsb_false in H; [exact H|].
    apply elem_of_app. left. apply elem_of_app. right. left.
  - eapply existsb_false in E; [exact E|].
    apply elem_of_app. right. apply elem_of_app. right. left.
Qed.

Lemma prune_split_fixed todo before :
  antichain todo →
  (∀ r rect2, r ∈ todo → rect2 ∈ before → contains rect2 r = false) →
  prune_split before todo = todo.
Proof.
  revert before. induction todo as [|a rest IH]; intros before Hac Hb; simpl; [done|].
  destruct Hac as [Ha Hac].
  assert (existsb (fun rect2 => contains rect2 a) (before ++ rest) = false) as ->.
  { apply existsb_false. intros b [Hb'|Hb']%elem_of_app.
    - apply Hb; [left | done].
    - by apply Ha. }
  f_equal. apply IH; [done|].
  intros r rect2 Hr [H2|H2]%elem_of_app.
  - apply Hb; [by right | done].
  - apply list_elem_of_singleton in H2 as ->. by apply Ha.
Qed.

Lemma remove_redundant_rectangles_antichain l :
  antichain (remove_redundant_rectangles l).
Proof. rewrite remove_redundant_rectangles_split. apply prune_split_antichain. Qed.

Lemma remove_redundant_rectangles_subset r l :
  r ∈ remove_redundant_rectangles l → r ∈ l.
Proof. rewrite remove_redundant_rectangles_split. apply prune_split_subset. Qed.

End Pruning.

(** C8. Pruning is idempotent: for every list of rectangles, applying
    [remove_redundant_rectangles] twice yields the same list as applying
    it once. *)
Theorem remove_redundant_rectangles_idempotent (rectangles : list Rectangle.t) :
  remove_redundant_rectangles (remove_redundant_rectangles rectangles)
  = remove_redundant_rectangles rectangles.
Proof.
  rewrite (remove_redundant_rectangles_split (remove_redundant_rectangles _)).
  apply prune_split_fixed.
  - apply remove_redundant_rectangles_antichain.
  - intros r rect2 _ H. inversion H.
Qed.

(** C9. If two positions of the input list hold rectangles that contain
    each other (in particular two identical rectangles), neither survives
    [remove_redundant_rectangles]: containment is tested non-strictly
    against every other position of the input, not against the survivors.
    Pruning a pool made of two copies of one rectangle leaves it empty. *)
Theorem remove_redundant_rectangles_drops_duplicates :
  (∀ (rectangles : list Rectangle.t) (i j : nat) (rect1 rect2 : Rectangle.t),
     rectangles !! i = Some rect1 → rectangles !! j = Some rect2 → i ≠ j →
     contains rect2 rect1 = true → contains rect1 rect2 = true →
     (rect1 ∉ remove_redundant_rectangles rectangles)
     ∧ (rect2 ∉ remove_redundant_rectangles rectangles))
  ∧ (∀ rect : Rectangle.t, remove_redundant_rectangles [rect; rect] = []).
Proof.
  split.
  - intros l i j r1 r2 Hi Hj Hij H21 H12.
    assert (r1 = r2) as <- by (by apply contains_antisym).
    assert (r1 ∉ remove_redundant_rectangles l) as Hn; [|done].
    rewrite remove_redundant_rectangles_split.
    intros (p & q & -> & H)%prune_split_elem. simpl in H.
    assert (∃ k, k ≠ length p ∧ (p ++ r1 :: q) !! k = Some r1) as (k & Hk & Hlk).
    { destruct (decide (i = length p)) as [->|]; [exists j | exists i]; done. }
    eapply existsb_false in H; [rewrite contains_refl in H; done|].
    destruct (decide (k < length p)%nat).
    + rewrite lookup_app_l in Hlk by done.
      apply elem_of_app. left. by eapply list_elem_of_lookup_2.
    + rewrite lookup_app_r in Hlk by lia.
      destruct (k - length p)%nat as [|m] eqn:E; [lia|]. simpl in Hlk.
      apply elem_of_app. right. by eapply list_elem_of_lookup_2.
  - intros rect. unfold remove_redundant_rectangles. simpl.
    by rewrite contains_refl.
Qed.

(** ** The validator *)

Lemma is_position_valid_true heap self component x y :
  is_position_valid heap self component x y = true →
  0 <= x ∧ 0 <= y
  ∧ x + Component.width component <= board_width self
  ∧ y + Component.height component <= board_height self
  ∧ (∀ l, l ∈ placed_components self →
       overlaps_placed component x y (heap l) = false)
  ∧ (Component.must_be_on_edge component = true →
       on_edge self component x y = true)
  ∧ (∀ tname tl,
       truthy (Component.proximity_target component) = Some tname →
       find_target heap self tname = Some tl →
       within_proximity component x y (heap tl)).
Proof.
  unfold is_position_valid.
  destruct (_ || _ || _ || _) eqn:Hb; [done|].
  destruct (existsb _ _) eqn:Ho; [done|].
  destruct (_ && _) eqn:He; [done|].
  intros Hp.
  rewrite !orb_false_iff, !Z.ltb_ge, !Z.gtb_ltb, !Z.ltb_ge in Hb.
  repeat split; try lia.
  - intros l Hl. eapply existsb_false in Ho; [exact Ho | done].
  - intros Hm. rewrite Hm in He. simpl in He. by apply negb_false_iff.
  - intros tname tl Ht Hf. rewrite Ht, Hf in Hp. unfold within_proximity.
    destruct (np_sqrt _) as [distance|]; [|done].
    exists distance. split; [done|]. by destruct (exceeds _ _).
Qed.

(** On a board with sides below [2 ** 31] the integer handed to [np.sqrt]
    stays below [2 ** 63]: for a position within the board and a target
    within the board (sizes not negative) [np.sqrt] returns a distance. *)
Lemma np_sqrt_on_board self component x y target :
  board_width self < 2 ^ 31 → board_height self < 2 ^ 31 →
  0 <= Component.width component → 0 <= Component.height component →
  0 <= Component.width target → 0 <= Component.height target →
  0 <= x → 0 <= y →
  x + Component.width component <= board_width self →
  y + Component.height component <= board_height self →
  within_board self target →
  ∃ distance, np_sqrt (center_distance_sq component x y target) = Some distance.
Proof.
  intros HW HH Hw Hh Htw Hth Hx Hy Hxw Hyh (Htx & Hty & Htxw & Htyh).
  unfold np_sqrt, center_distance_sq.
  pose proof (Z.div_pos _ 2 Hw ltac:(lia)).
  pose proof (Z.div_pos _ 2 Hh ltac:(lia)).
  pose proof (Z.div_pos _ 2 Htw ltac:(lia)).
  pose proof (Z.div_pos _ 2 Hth ltac:(lia)).
  pose proof (Z.div_le_upper_bound (Component.width component) 2
                (Component.width component) ltac:(lia) ltac:(lia)).
  pose proof (Z.div_le_upper_bound (Component.height component) 2
                (Component.height component) ltac:(lia) ltac:(lia)).
  pose proof (Z.div_le_upper_bound (Component.width target) 2
                (Component.width target) ltac:(lia) ltac:(lia)).
  pose proof (Z.div_le_upper_bound (Component.height target) 2
                (Component.height target) ltac:(lia) ltac:(lia)).
  set (dx := x + Component.width component / 2
             - (Component.x target + Component.width target / 2)).
  set (dy := y + Component.height component / 2
             - (Component.y target + Component.height target / 2)).
  assert (- 2 ^ 31 < dx < 2 ^ 31) as Hdx by (unfold dx; lia).
  assert (- 2 ^ 31 < dy < 2 ^ 31) as Hdy by (unfold dy; lia).
  assert (0 <= dx ^ 2 < 2 ^ 62) as Hx2 by (rewrite Z.pow_2_r; nia).
  assert (0 <= dy ^ 2 < 2 ^ 62) as Hy2 by (rewrite Z.pow_2_r; nia).
  destruct (_ && _) eqn:E; [by eexists|].
  apply andb_false_iff in E as [E|E]; [apply Z.leb_gt in E | apply Z.ltb_ge in E]; lia.
Qed.

(** Where the code raises, the validator here rejects. *)
Lemma is_position_valid_raises_rejects heap self component x y :
  is_position_valid_raises heap self component x y = true →
  is_position_valid heap self component x y = false.
Proof.
  unfold is_position_valid_raises, is_position_valid.
  destruct (_ || _ || _ || _); [done|].
  destruct (existsb _ _); [done|].
  destruct (_ && _); [done|].
  destruct (truthy _) as [tname|]; [|done].
  destruct (find_target _ _ _) as [tl|]; [|done].
  by destruct (np_sqrt _).
Qed.

(** No call of the validator raises on a board with sides below
    [2 ** 31], when the placed components lie within the board and no
    size is negative. *)
Lemma is_position_valid_never_raises heap self component x y :
  board_width self < 2 ^ 31 → board_height self < 2 ^ 31 →
  (∀ l, l ∈ placed_components self →
        within_board self (heap l)
        ∧ 0 <= Component.width (heap l) ∧ 0 <= Component.height (heap l)) →
  0 <= Component.width component → 0 <= Component.height component →
  is_position_valid_raises heap self component x y = false.
Proof.
  intros HW HH Hplaced Hw Hh. unfold is_position_valid_raises.
  destruct (_ || _ || _ || _) eqn:Hb; [done|].
  destruct (existsb _ _); [done|].
  destruct (_ && _); [done|].
  destruct (truthy _) as [tname|]; [|done].
  destruct (find_target _ _ _) as [tl|] eqn:Hf; [|done].
  rewrite !orb_false_iff, !Z.ltb_ge, !Z.gtb_ltb, !Z.ltb_ge in Hb.
  apply find_some in Hf as [Hin _]. apply list_elem_of_In in Hin.
  destruct (Hplaced tl Hin) as (Hwb & Htw & Hth).
  destruct (np_sqrt_on_board self component x y (heap tl)) as [distance ->];
    try done; lia.
Qed.

Lemma overlaps_placed_false component x y placed :
  overlaps_placed component x y placed = false ↔
  x >= Component.x placed + Component.width placed
  ∨ x + Component.width component <= Component.x placed
  ∨ y >= Component.y placed + Component.height placed
  ∨ y + Component.height component <= Component.y placed.
Proof.
  unfold overlaps_placed.
  rewrite negb_false_iff, !orb_true_iff, !Z.geb_le, !Z.leb_le. lia.
Qed.

(** ** The heuristics *)

Section Scan.

Variable key : Rectangle.t → Z * Z.
Variable ok : Rectangle.t → bool.

Lemma scan_inv_step l st r :
  scan_inv key ok l st → scan_inv key ok (l ++ [r]) (scan_body key ok st r).
Proof.
  intros [[-> Hnone] | (pre & rect & post & -> & Hok & -> & Hpre & Hpost)].
  - unfold scan_body, no_best. destruct (ok r) eqn:Hr; simpl.
    + right. exists l, r, []. repeat split; try done.
      * intros r' Hr' Hok'. rewrite Hnone in Hok'; done.
      * intros r' Hr'. inversion Hr'.
    + left. split; [done|].
      intros r' [Hr'|Hr']%elem_of_app; [by apply Hnone|].
      by apply list_elem_of_singleton in Hr' as ->.
  - unfold scan_body. destruct (ok r) eqn:Hr.
    + simpl. destruct (_ || _) eqn:Hc.
      * right. exists (pre ++ rect :: post), r, []. repeat split; try done.
        -- assert (lex_lt (key r) (key rect)) as Hlt.
           { unfold lex_lt. apply orb_true_iff in Hc as [Hc|Hc].
             - apply Z.ltb_lt in Hc. lia.
             - apply andb_true_iff in Hc as [Hc1 Hc2].
               apply Z.eqb_eq in Hc1. apply Z.ltb_lt in Hc2. lia. }
           intros r' Hr' Hok'.
           apply elem_of_app in Hr' as [Hr'|Hr'].
           ++ specialize (Hpre r' Hr' Hok'). unfold lex_lt in *. lia.
           ++ apply elem_of_cons in Hr' as [->|Hr']; [done|].
              specialize (Hpost r' Hr' Hok'). unfold lex_lt, lex_le in *. lia.
        -- intros r' Hr'. inversion Hr'.
      * right. exists pre, rect, (post ++ [r]). repeat split; try done.
        -- by rewrite <- app_assoc.
        -- intros r' [Hr'|Hr']%elem_of_app Hok'; [by apply Hpost|].
           apply list_elem_of_singleton in Hr' as ->.
           apply orb_false_iff in Hc as [Hc1 Hc2].
           apply Z.ltb_ge in Hc1. apply andb_false_iff in Hc2.
           unfold lex_le.
           destruct Hc2 as [Hc2|Hc2];
             [apply Z.eqb_neq in Hc2 | apply Z.ltb_ge in Hc2]; lia.
    + right. exists pre, rect, (post ++ [r]). repeat split; try done.
      * by rewrite <- app_assoc.
      * intros r' [Hr'|Hr']%elem_of_app Hok'; [by apply Hpost|].
        apply list_elem_of_singleton in Hr' as ->. congruence.
Qed.

Lemma scan_inv_fold l :
  scan_inv key ok l (fold_left (scan_body key ok) l no_best).
Proof.
  induction l as [|r l IH] using rev_ind.
  - left. split; [done|]. intros r Hr. inversion Hr.
  - rewrite fold_left_app. simpl. by apply scan_inv_step.
Qed.

Lemma scan_first_best l bx by_ b1 b2 :
  fold_left (scan_body key ok) l no_best = (bx, by_, b1, b2) →
  first_best key ok l (bx, by_, b1).
Proof.
  intros E. pose proof (scan_inv_fold l) as H. rewrite E in H.
  destruct H as [[H Hnone] | (pre & rect & post & Hl & Hok & H & Hpre & Hpost)].
  - injection H as -> -> -> ->. by constructor.
  - injection H as -> -> -> ->. by econstructor.
Qed.

End Scan.

Lemma fold_left_pointwise {A B} (f g : A → B → A) (l : list B) (a : A) :
  (∀ a b, f a b = g a b) → fold_left f l a = fold_left g l a.
Proof.
  intros H. revert a. induction l as [|b l IH]; intros a; simpl; [done|].
  by rewrite H, IH.
Qed.

Lemma bssf_body_scan heap self component st rect :
  bssf_body heap self component st rect
  = scan_body (bssf_key component) (candidate heap self component) st rect.
Proof.
  destruct st as [[[bx by_] b1] b2]. unfold bssf_body, scan_body, candidate.
  destruct (fits rect component); [|done].
  by destruct (is_position_valid _ _ _ _ _).
Qed.

Lemma baf_body_scan heap self component st rect :
  baf_body heap self component st rect
  = scan_body (baf_key component) (candidate heap self component) st rect.
Proof.
  destruct st as [[[bx by_] b1] b2]. unfold baf_body, scan_body, candidate.
  destruct (fits rect component); [|done].
  by destruct (is_position_valid _ _ _ _ _).
Qed.

(** BLSF keeps its minima in the order (short, long) but compares the
    long side first: its loop is the generic one with the minima swapped. *)
Lemma blsf_fold_scan heap self component l bx by_ bs bl :
  fold_left (blsf_body heap self component) l (bx, by_, bs, bl)
  = let '(x, y, b1, b2) :=
      fold_left (scan_body (blsf_key component) (candidate heap self component))
                l (bx, by_, bl, bs) in
    (x, y, b2, b1).
Proof.
  revert bx by_ bs bl. induction l as [|rect l IH]; intros bx by_ bs bl; simpl; [done|].
  unfold candidate.
  destruct (fits rect component); simpl; [|apply IH].
  destruct (is_position_valid _ _ _ _ _); simpl; [|apply IH].
  destruct (_ || _); apply IH.
Qed.

Lemma find_best_position_bssf_spec heap self component :
  first_best (bssf_key component) (candidate heap self component)
    (free_rectangles self) (find_best_position_bssf heap self component).
Proof.
  unfold find_best_position_bssf.
  rewrite (fold_left_pointwise _ _ _ _ (bssf_body_scan heap self component)).
  destruct (fold_left _ _ _) as [[[bx by_] b1] b2] eqn:E.
  by eapply scan_first_best.
Qed.

Lemma find_best_position_blsf_spec heap self component :
  first_best (blsf_key component) (candidate heap self component)
    (free_rectangles self) (find_best_position_blsf heap self component).
Proof.
  unfold find_best_position_blsf, no_best. rewrite blsf_fold_scan.
  destruct (fold_left _ _ _) as [[[bx by_] b1] b2] eqn:E.
  by eapply scan_first_best.
Qed.

Lemma find_best_position_baf_spec heap self component :
  first_best (baf_key component) (candidate heap self component)
    (free_rectangles self) (find_best_position_baf heap self component).
Proof.
  unfold find_best_position_baf.
  rewrite (fold_left_pointwise _ _ _ _ (baf_body_scan heap self component)).
  destruct (fold_left _ _ _) as [[[bx by_] b1] b2] eqn:E.
  by eapply scan_first_best.
Qed.

Lemma candidate_valid heap self component rect :
  candidate heap self component rect = true →
  fits rect component = true
  ∧ is_position_valid heap self component (Rectangle.x rect) (Rectangle.y rect) = true.
Proof. unfold candidate. by rewrite andb_true_iff. Qed.

Lemma first_best_found key heap self component pool res :
  first_best key (candidate heap self component) pool res →
  found res = true →
  ∃ rect, rect ∈ pool ∧ candidate heap self component rect = true
          ∧ res.1.1 = Rectangle.x rect ∧ res.1.2 = Rectangle.y rect
          ∧ res.2 = Fin (key rect).1.
Proof.
  intros [Hnone | pre rect post -> Hok _ _] Hf; [done|].
  exists rect. repeat split; try done.
  apply elem_of_app. right. left.
Qed.

Lemma first_best_not_found key heap self component pool res :
  first_best key (candidate heap self component) pool res →
  found res = false →
  res = (-1, -1, Inf) ∧ ∀ r, r ∈ pool → candidate heap self component r = false.
Proof.
  intros [Hnone | pre rect post -> Hok _ _] Hf; [done|].
  apply candidate_valid in Hok as [_ Hv].
  apply is_position_valid_true in Hv as (Hx & _).
  unfold found in Hf. simpl in Hf. apply negb_false_iff, Z.eqb_eq in Hf. lia.
Qed.

Lemma first_best_found_iff key heap self component pool res :
  first_best key (candidate heap self component) pool res →
  found res = true ↔ ∃ r, r ∈ pool ∧ candidate heap self component r = true.
Proof.
  intros H. split.
  - intros Hf. destruct (first_best_found _ _ _ _ _ _ H Hf) as (r & ? & ? & _).
    by exists r.
  - intros (r & Hr & Hc). destruct (found res) eqn:Hf; [done|].
    destruct (first_best_not_found _ _ _ _ _ _ H Hf) as [_ Hnone].
    rewrite Hnone in Hc; done.
Qed.

Lemma heuristics_spec heap self component heuristic :
  heuristic ∈ heuristics →
  ∃ key, first_best key (candidate heap self component) (free_rectangles self)
           (heuristic heap self component).
Proof.
  unfold heuristics. rewrite !elem_of_cons, elem_of_nil.
  intros [->|[->|[->|[]]]].
  - eexists. apply find_best_position_bssf_spec.
  - eexists. apply find_best_position_blsf_spec.
  - eexists. apply find_best_position_baf_spec.
Qed.

(** ** The engine's choice among the heuristics *)

Lemma num_lt_irrefl a : num_lt a a = false.
Proof. destruct a; simpl; [apply Z.ltb_irrefl | done]. Qed.

Lemma num_lt_trans_false a b c :
  num_lt a b = false → num_lt b c = false → num_lt a c = false.
Proof.
  destruct a, b, c; simpl; try done. rewrite !Z.ltb_ge. lia.
Qed.

Lemma num_lt_false_lt a b c :
  num_lt a b = false → num_lt c b = true → num_lt a c = false.
Proof.
  destruct a, b, c; simpl; try done. rewrite Z.ltb_lt, !Z.ltb_ge. lia.
Qed.

Lemma num_lt_asym a b : num_lt a b = true → num_lt b a = false.
Proof. destruct a, b; simpl; try done. rewrite Z.ltb_lt, Z.ltb_ge. lia. Qed.

(** The loop over the three heuristics, unrolled. *)
Lemma choose_unfold heap self component :
  choose heap self component
  = choose_body heap self component
      (choose_body heap self component
         (choose_body heap self component (-1, -1, Inf) find_best_position_bssf)
         find_best_position_blsf)
      find_best_position_baf.
Proof. reflexivity. Qed.

Lemma choose_pick heap self component :
  choose heap self component
  = pick (pick (pick (-1, -1, Inf) (find_best_position_bssf heap self component))
               (find_best_position_blsf heap self component))
         (find_best_position_baf heap self component).
Proof.
  rewrite choose_unfold. unfold choose_body, pick.
  destruct (find_best_position_bssf heap self component) as [[x1 y1] s1].
  destruct (find_best_position_blsf heap self component) as [[x2 y2] s2].
  by destruct (find_best_position_baf heap self component) as [[x3 y3] s3].
Qed.

(** The result of the three iterations is the sentinel when no result is a
    position; otherwise it is one of the results that are positions, and
    none of those has a smaller score. *)
Lemma pick_min r1 r2 r3 :
  finite_if_found r1 → finite_if_found r2 → finite_if_found r3 →
  let c := pick (pick (pick (-1, -1, Inf) r1) r2) r3 in
  (found c = false ∧ found r1 = false ∧ found r2 = false ∧ found r3 = false)
  ∨ (found c = true
     ∧ ((c = r1 ∧ found r1 = true) ∨ (c = r2 ∧ found r2 = true)
        ∨ (c = r3 ∧ found r3 = true))
     ∧ (found r1 = true → num_lt r1.2 c.2 = false)
     ∧ (found r2 = true → num_lt r2.2 c.2 = false)
     ∧ (found r3 = true → num_lt r3.2 c.2 = false)).
Proof.
  destruct r1 as [[x1 y1] s1], r2 as [[x2 y2] s2], r3 as [[x3 y3] s3].
  unfold finite_if_found, found, pick. simpl. intros F1 F2 F3.
  destruct (x1 =? -1) eqn:E1; simpl in *;
    [| destruct (F1 eq_refl) as [z1 ->]; simpl];
    (destruct (x2 =? -1) eqn:E2; simpl in *;
       [| destruct (F2 eq_refl) as [z2 ->]; simpl;
          try destruct (z2 <? z1) eqn:L2]);
    (destruct (x3 =? -1) eqn:E3; simpl in *;
       [| destruct (F3 eq_refl) as [z3 ->]; simpl;
          try destruct (z3 <? _) eqn:L3]);
    simpl; rewrite ?E1, ?E2, ?E3; simpl.
  all: try (left; done).
  all: right; split; [done|].
  all: rewrite ?Z.ltb_lt, ?Z.ltb_ge in *.
  all: (split; [tauto|]).
  all: repeat split; intros ?; try done; rewrite ?Z.ltb_ge; try lia.
Qed.


Lemma heuristics_finite heap self component heuristic :
  heuristic ∈ heuristics → finite_if_found (heuristic heap self component).
Proof.
  intros [key Hh]%(heuristics_spec heap self component) Hf.
  destruct (first_best_found _ _ _ _ _ _ Hh Hf) as (r & _ & _ & _ & _ & ->).
  by eexists.
Qed.

Lemma heuristics_found_iff heap self component heuristic :
  heuristic ∈ heuristics →
  found (heuristic heap self component) = true
  ↔ ∃ r, r ∈ free_rectangles self ∧ candidate heap self component r = true.
Proof.
  intros [key Hh]%(heuristics_spec heap self component).
  by eapply first_best_found_iff.
Qed.

Lemma in_heuristics_bssf : find_best_position_bssf ∈ heuristics.
Proof. unfold heuristics. repeat constructor. Qed.
Lemma in_heuristics_blsf : find_best_position_blsf ∈ heuristics.
Proof. unfold heuristics. repeat constructor. Qed.
Lemma in_heuristics_baf : find_best_position_baf ∈ heuristics.
Proof. unfold heuristics. repeat constructor. Qed.

Lemma heuristics_cases (P : (store → PCBPlacer → Component.t → Z * Z * num) → Prop) :
  P find_best_position_bssf → P find_best_position_blsf →
  P find_best_position_baf → ∀ h, h ∈ heuristics → P h.
Proof.
  intros H1 H2 H3 h. unfold heuristics. rewrite !elem_of_cons, elem_of_nil.
  intros [->|[->|[->|[]]]]; done.
Qed.

Lemma choose_min heap self component :
  (found (choose heap self component) = false
   ∧ ∀ heuristic, heuristic ∈ heuristics →
       found (heuristic heap self component) = false)
  ∨ (found (choose heap self component) = true
     ∧ ∃ heuristic, heuristic ∈ heuristics
         ∧ heuristic heap self component = choose heap self component
         ∧ found (heuristic heap self component) = true
         ∧ ∀ other, other ∈ heuristics →
             found (other heap self component) = true →
             num_lt (other heap self component).2 (choose heap self component).2
             = false).
Proof.
  rewrite choose_pick.
  destruct (pick_min _ _ _
              (heuristics_finite heap self component _ in_heuristics_bssf)
              (heuristics_finite heap self component _ in_heuristics_blsf)
              (heuristics_finite heap self component _ in_heuristics_baf))
    as [(Hc & H1 & H2 & H3) | (Hc & Hsel & H1 & H2 & H3)].
  - left. split; [done|]. by apply heuristics_cases.
  - right. split; [done|].
    destruct Hsel as [[E F]|[[E F]|[E F]]];
      [exists find_best_position_bssf | exists find_best_position_blsf
       | exists find_best_position_baf].
    all: split; [by apply (heuristics_cases (fun h => h ∈ heuristics));
                   auto using in_heuristics_bssf, in_heuristics_blsf, in_heuristics_baf|].
    all: split; [done|]; split; [done|].
    all: by apply (heuristics_cases
      (fun h => found (h heap self component) = true →
                num_lt (h heap self component).2 _ = false)).
Qed.

Lemma place_component_unfold heap self component :
  place_component heap self component
  = if found (choose heap self (heap component))
    then (true, commit heap self component
                  (choose heap self (heap component)).1.1
                  (choose heap self (heap component)).1.2)
    else (false, (heap, self)).
Proof.
  unfold place_component, found.
  destruct (choose heap self (heap component)) as [[bx by_] bs]. simpl.
  by destruct (bx =? -1).
Qed.

(** The position the engine commits passed the validator. *)
Lemma choose_valid heap self component :
  found (choose heap self component) = true →
  is_position_valid heap self component
    (choose heap self component).1.1 (choose heap self component).1.2 = true.
Proof.
  intros Hf. destruct (choose_min heap self component) as [[Hc _] | (_ & h & Hh & E & F & _)].
  - congruence.
  - rewrite <- E.
    destruct (heuristics_spec heap self component h Hh) as [key Hk].
    destruct (first_best_found _ _ _ _ _ _ Hk F) as (r & _ & Hc & -> & -> & _).
    by apply candidate_valid in Hc as [_ Hv].
Qed.

(** C4. [place_component] evaluates BSSF, BLSF and BAF.  Each returns the
    top-left corner of the first pool rectangle, in pool order, that is
    large enough, passes the validator at that corner and has the least
    (score, tie-break) pair, or the sentinel when there is none.  The call
    fails exactly when no pool rectangle is such a candidate; when it
    succeeds it commits the position returned by a heuristic whose raw
    score no other heuristic's score is below: the object holds that
    position and is otherwise as it was, no other object changes, the
    object is appended to the placed list, and the pool is the old pool
    split around the object and pruned. *)
Theorem place_component_spec (heap : store) (self : PCBPlacer) (component : loc) :
  first_best (bssf_key (heap component)) (candidate heap self (heap component))
    (free_rectangles self) (find_best_position_bssf heap self (heap component))
  ∧ first_best (blsf_key (heap component)) (candidate heap self (heap component))
      (free_rectangles self) (find_best_position_blsf heap self (heap component))
  ∧ first_best (baf_key (heap component)) (candidate heap self (heap component))
      (free_rectangles self) (find_best_position_baf heap self (heap component))
  ∧ ((place_component heap self component).1 = false
     ↔ ∀ r, r ∈ free_rectangles self →
         candidate heap self (heap component) r = false)
  ∧ (∀ st', place_component heap self component = (true, st') →
       ∃ heuristic x y score,
         heuristic ∈ heuristics
         ∧ heuristic heap self (heap component) = (x, y, score)
         ∧ x ≠ -1
         ∧ st' = commit heap self component x y
         ∧ Component.x (st'.1 component) = x
         ∧ Component.y (st'.1 component) = y
         ∧ st'.1 component = Component.set_position x y (heap component)
         ∧ (∀ l, l ≠ component → st'.1 l = heap l)
         ∧ placed_components st'.2 = placed_components self ++ [component]
         ∧ free_rectangles st'.2
           = remove_redundant_rectangles
               (flat_map (split_or_keep (st'.1 component) x y) (free_rectangles self))
         ∧ board_width st'.2 = board_width self
         ∧ board_height st'.2 = board_height self
         ∧ ∀ other x' y' score',
             other ∈ heuristics →
             other heap self (heap component) = (x', y', score') →
             x' ≠ -1 → num_lt score' score = false).
Proof.
  split; [apply find_best_position_bssf_spec|].
  split; [apply find_best_position_blsf_spec|].
  split; [apply find_best_position_baf_spec|].
  rewrite place_component_unfold.
  destruct (choose_min heap self (heap component))
    as [[Hc Hnone] | (Hc & h & Hh & E & F & Hmin)]; rewrite Hc; simpl.
  - split; [|done]. split; [|done]. intros _ r Hr.
    destruct (candidate heap self (heap component) r) eqn:Hcand; [|done].
    rewrite <- (Hnone _ in_heuristics_bssf). symmetry.
    apply heuristics_found_iff; [apply in_heuristics_bssf | by exists r].
  - split.
    + split; [done|]. intros Hnone.
      apply (heuristics_found_iff _ _ _ _ Hh) in F as (r & Hr & Hcand).
      rewrite Hnone in Hcand; done.
    + intros st' [= <-].
      destruct (choose heap self (heap component)) as [[bx by_] bs] eqn:Ech.
      exists h, bx, by_, bs. simpl in *. repeat split; try done.
      all: try (by rewrite fn_lookup_insert).
      * unfold found in Hc. simpl in Hc. apply negb_true_iff, Z.eqb_neq in Hc. done.
      * intros l Hl. by apply fn_lookup_insert_ne.
      * intros other x' y' score' Ho Eo Hx'.
        specialize (Hmin other Ho). rewrite Eo in Hmin. simpl in Hmin.
        apply Hmin. unfold found. simpl. by apply negb_true_iff, Z.eqb_neq.
Qed.


(** *** BSSF always wins

    A consequence the source does not spell out: over the same candidates
    the least short leftover is never above the least long leftover nor
    above the least leftover area (leftovers are non-negative integers),
    so the strict comparison never replaces BSSF's result. *)





(** C6. If no heuristic produces a position, [place_component] returns
    failure and the store (hence every component's position fields), the
    placed list and the pool are exactly as before the call; and whenever
    the call returns failure the state is unchanged. *)
Theorem place_component_failure (heap : store) (self : PCBPlacer) (component : loc) :
  ((∀ heuristic, heuristic ∈ heuristics →
      found (heuristic heap self (heap component)) = false) →
   place_component heap self component = (false, (heap, self)))
  ∧ (∀ st', place_component heap self component = (false, st') →
       st' = (heap, self)).
Proof.
  rewrite place_component_unfold. split.
  - intros Hnone.
    destruct (choose_min heap self (heap component))
      as [[-> _] | (_ & h & Hh & _ & F & _)]; [done|].
    rewrite (Hnone h Hh) in F. done.
  - intros st'. destruct (found _); [done|]. by intros [= <-].
Qed.

(** ** The placed-set invariant *)

Lemma separated_sym a b : separated a b → separated b a.
Proof. unfold separated. lia. Qed.

Lemma separated_disjoint a b : separated a b → interiors_disjoint a b.
Proof.
  unfold separated, interiors_disjoint, in_component, in_box. intros H px py. lia.
Qed.

Lemma commit_placed_invariant heap self component x y :
  placed_invariant heap self →
  is_position_valid heap self (heap component) x y = true →
  placed_invariant (commit heap self component x y).1 (commit heap self component x y).2.
Proof.
  intros [Hin Hsep] Hv.
  apply is_position_valid_true in Hv as (Hx & Hy & Hw & Hh & Hov & _).
  unfold commit.
  cbn [fst snd placed_components board_width board_height free_rectangles].
  assert (∀ l, l ∈ placed_components self ++ [component] →
               l ≠ component → l ∈ placed_components self) as Hold.
  { intros l [Hl|Hl]%elem_of_app Hne; [done|].
    by apply list_elem_of_singleton in Hl. }
  assert (∀ l, l ∈ placed_components self → l ≠ component →
               separated (Component.set_position x y (heap component)) (heap l)) as Hnew.
  { intros l Hl _. specialize (Hov l Hl).
    apply overlaps_placed_false in Hov. unfold separated. simpl. lia. }
  split.
  - intros l Hl. destruct (decide (l = component)) as [->|Hne].
    + unfold within_board. cbn [board_width board_height].
      rewrite fn_lookup_insert. simpl. lia.
    + unfold within_board. cbn [board_width board_height].
      rewrite fn_lookup_insert_ne by done. apply Hin. by apply Hold.
  - intros l1 l2 H1 H2 Hne.
    destruct (decide (l1 = component)) as [->|Hne1];
      destruct (decide (l2 = component)) as [->|Hne2]; [done| | |].
    + rewrite fn_lookup_insert, fn_lookup_insert_ne by done. apply Hnew; auto.
    + rewrite fn_lookup_insert, fn_lookup_insert_ne by done.
      apply separated_sym, Hnew; auto.
    + rewrite !fn_lookup_insert_ne by done. apply Hsep; auto.
Qed.

Lemma place_component_placed_invariant heap self component :
  placed_invariant heap self →
  placed_invariant (place_component heap self component).2.1
                   (place_component heap self component).2.2.
Proof.
  intros Hinv. rewrite place_component_unfold.
  destruct (found _) eqn:Hc; [|done]. simpl.
  apply commit_placed_invariant; [done|]. by apply choose_valid.
Qed.

Lemma try_positions_placed_invariant heap self mb2 positions :
  placed_invariant heap self →
  placed_invariant (try_positions heap self mb2 positions).2.1
                   (try_positions heap self mb2 positions).2.2.
Proof.
  intros Hinv. induction positions as [|[x y] rest IH]; simpl; [done|].
  destruct (is_position_valid heap self (heap mb2) x y) eqn:Hv; [|done].
  by apply commit_placed_invariant.
Qed.

Lemma force_mikrobus_placement_unfold heap self mb1 mb2 :
  force_mikrobus_placement heap self mb1 mb2
  = if (place_component heap self mb1).1
    then try_positions (place_component heap self mb1).2.1
           (place_component heap self mb1).2.2 mb2
           (target_positions (place_component heap self mb1).2.2
              ((place_component heap self mb1).2.1 mb1))
    else (false, (place_component heap self mb1).2).
Proof.
  unfold force_mikrobus_placement.
  destruct (place_component heap self mb1) as [ok [heap1 self1]]. simpl.
  by destruct ok.
Qed.

Lemma force_mikrobus_placement_placed_invariant heap self mb1 mb2 :
  placed_invariant heap self →
  placed_invariant (force_mikrobus_placement heap self mb1 mb2).2.1
                   (force_mikrobus_placement heap self mb1 mb2).2.2.
Proof.
  intros Hinv. rewrite force_mikrobus_placement_unfold.
  pose proof (place_component_placed_invariant heap self mb1 Hinv) as H1.
  destruct (place_component heap self mb1).1; [|done].
  by apply try_positions_placed_invariant.
Qed.

Lemma exec_placed_invariant st c :
  placed_invariant st.1 st.2 → placed_invariant (exec st c).1 (exec st c).2.
Proof.
  destruct c; simpl.
  - apply place_component_placed_invariant.
  - apply force_mikrobus_placement_placed_invariant.
Qed.

Lemma run_snoc calls c st : run (calls ++ [c]) st = exec (run calls st) c.
Proof. unfold run. by rewrite fold_left_app. Qed.

(** C1. Placed-set invariant.  Starting from a fresh placer, after every
    sequence of calls to [place_component] and [force_mikrobus_placement]
    -- in particular after every successful one -- every placed component
    lies within the board (0 <= x, 0 <= y, x + width <= board_width,
    y + height <= board_height) and every two distinct placed components
    are separated along an axis, so that no cell lies in both: their
    interiors are disjoint, touching edges being allowed. *)
Theorem placed_invariant_holds (board_width board_height : Z) (heap : store)
    (calls : list call) :
  placed_invariant (run calls (heap, init board_width board_height)).1
                   (run calls (heap, init board_width board_height)).2
  ∧ ∀ l1 l2,
      l1 ∈ placed_components (run calls (heap, init board_width board_height)).2 →
      l2 ∈ placed_components (run calls (heap, init board_width board_height)).2 →
      l1 ≠ l2 →
      interiors_disjoint
        ((run calls (heap, init board_width board_height)).1 l1)
        ((run calls (heap, init board_width board_height)).1 l2).
Proof.
  assert (placed_invariant (run calls (heap, init board_width board_height)).1
            (run calls (heap, init board_width board_height)).2) as Hinv.
  { induction calls as [|c calls IH] using rev_ind.
    - split; simpl; intros l; [|intros l2]; intros Hl; inversion Hl.
    - rewrite run_snoc. by apply exec_placed_invariant. }
  split; [done|].
  intros l1 l2 H1 H2 Hne. apply separated_disjoint. by apply Hinv.
Qed.

(** ** Failure of the paired placement *)

Lemma try_positions_failure heap self mb2 positions st' :
  try_positions heap self mb2 positions = (false, st') → st' = (heap, self).
Proof.
  induction positions as [|[x y] rest IH]; simpl; [by intros [= <-]|].
  by destruct (is_position_valid heap self (heap mb2) x y).
Qed.

(** C5. If [force_mikrobus_placement] fails after the anchor was placed,
    for whichever reason, the state it leaves is exactly the state after
    the anchor's placement: nothing is rolled back, the anchor is the last
    entry of the placed list and holds the position the engine chose. *)
Theorem force_mikrobus_placement_no_rollback (heap : store) (self : PCBPlacer)
    (mb1 mb2 : loc) (st1 st' : store * PCBPlacer) :
  place_component heap self mb1 = (true, st1) →
  force_mikrobus_placement heap self mb1 mb2 = (false, st') →
  st' = st1
  ∧ placed_components st'.2 = placed_components self ++ [mb1]
  ∧ st'.1 mb1 = Component.set_position (choose heap self (heap mb1)).1.1
                  (choose heap self (heap mb1)).1.2 (heap mb1).
Proof.
  intros Hp Hf. rewrite force_mikrobus_placement_unfold, Hp in Hf. simpl in Hf.
  apply try_positions_failure in Hf. rewrite <- surjective_pairing in Hf.
  subst st'. split; [done|].
  rewrite place_component_unfold in Hp. destruct (found _); [|done].
  injection Hp as <-. unfold commit.
  cbn [fst snd placed_components]. split; [done|].
  by rewrite fn_lookup_insert.
Qed.

(** ** The proximity rule *)

(** ** Rounding of [np.sqrt] *)























Lemma try_positions_success heap self mb2 positions st' :
  try_positions heap self mb2 positions = (true, st') →
  ∃ x y, (x, y) ∈ positions
         ∧ is_position_valid heap self (heap mb2) x y = true
         ∧ st' = commit heap self mb2 x y.
Proof.
  induction positions as [|[x y] rest IH]; simpl; [done|].
  destruct (is_position_valid heap self (heap mb2) x y) eqn:Hv.
  - intros [= <-]. exists x, y. repeat split; [left | done].
  - intros (x' & y' & Hin & H)%IH. exists x', y'. split; [by right | done].
Qed.



(** ** Splitting a free rectangle *)

Section Split.

Variables (component : Component.t) (x y : Z).

Local Abbreviation w := (Component.width component).
Local Abbreviation h := (Component.height component).

Lemma intersects_spec rect :
  intersects rect component x y = true ↔
  x < Rectangle.x rect + Rectangle.width rect ∧ Rectangle.x rect < x + w
  ∧ y < Rectangle.y rect + Rectangle.height rect ∧ Rectangle.y rect < y + h.
Proof.
  unfold intersects.
  rewrite !andb_true_iff, !Z.ltb_lt, !Z.gtb_ltb, !Z.ltb_lt. tauto.
Qed.

Lemma split_free_rectangle_elem rect s :
  s ∈ split_free_rectangle rect component x y ↔
  (Rectangle.x rect < x
   ∧ s = Rectangle.mk (Rectangle.x rect) (Rectangle.y rect)
           (x - Rectangle.x rect) (Rectangle.height rect))
  ∨ (x + w < Rectangle.x rect + Rectangle.width rect
     ∧ s = Rectangle.mk (x + w) (Rectangle.y rect)
             (Rectangle.x rect + Rectangle.width rect - x - w)
             (Rectangle.height rect))
  ∨ (Rectangle.y rect < y
     ∧ s = Rectangle.mk (Rectangle.x rect) (Rectangle.y rect)
             (Rectangle.width rect) (y - Rectangle.y rect))
  ∨ (y + h < Rectangle.y rect + Rectangle.height rect
     ∧ s = Rectangle.mk (Rectangle.x rect) (y + h) (Rectangle.width rect)
             (Rectangle.y rect + Rectangle.height rect - y - h)).
Proof.
  unfold split_free_rectangle. rewrite !elem_of_app.
  rewrite !Z.gtb_ltb.
  destruct (Z.ltb_spec (Rectangle.x rect) x);
    destruct (Z.ltb_spec (x + Component.width component)
                (Rectangle.x rect + Rectangle.width rect));
    destruct (Z.ltb_spec (Rectangle.y rect) y);
    destruct (Z.ltb_spec (y + Component.height component)
                (Rectangle.y rect + Rectangle.height rect));
    rewrite ?list_elem_of_singleton, ?elem_of_nil; intuition (try lia).
Qed.

Lemma split_or_keep_elem rect s :
  s ∈ split_or_keep component x y rect ↔
  (intersects rect component x y = false ∧ s = rect)
  ∨ (intersects rect component x y = true
     ∧ s ∈ split_free_rectangle rect component x y).
Proof.
  unfold split_or_keep. destruct (intersects rect component x y).
  - intuition congruence.
  - rewrite list_elem_of_singleton. intuition congruence.
Qed.

(** Case analysis on a rectangle produced by the loop body, in arithmetic
    form. *)
Lemma split_or_keep_cases rect s :
  s ∈ split_or_keep component x y rect →
  (¬ (x < Rectangle.x rect + Rectangle.width rect ∧ Rectangle.x rect < x + w
      ∧ y < Rectangle.y rect + Rectangle.height rect ∧ Rectangle.y rect < y + h)
   ∧ s = rect)
  ∨ ((x < Rectangle.x rect + Rectangle.width rect ∧ Rectangle.x rect < x + w
      ∧ y < Rectangle.y rect + Rectangle.height rect ∧ Rectangle.y rect < y + h)
     ∧ ((Rectangle.x rect < x
         ∧ s = Rectangle.mk (Rectangle.x rect) (Rectangle.y rect)
                 (x - Rectangle.x rect) (Rectangle.height rect))
        ∨ (x + w < Rectangle.x rect + Rectangle.width rect
           ∧ s = Rectangle.mk (x + w) (Rectangle.y rect)
                   (Rectangle.x rect + Rectangle.width rect - x - w)
                   (Rectangle.height rect))
        ∨ (Rectangle.y rect < y
           ∧ s = Rectangle.mk (Rectangle.x rect) (Rectangle.y rect)
                   (Rectangle.width rect) (y - Rectangle.y rect))
        ∨ (y + h < Rectangle.y rect + Rectangle.height rect
           ∧ s = Rectangle.mk (Rectangle.x rect) (y + h) (Rectangle.width rect)
                   (Rectangle.y rect + Rectangle.height rect - y - h)))).
Proof.
  rewrite split_or_keep_elem, split_free_rectangle_elem, <- intersects_spec.
  destruct (intersects rect component x y); intuition congruence.
Qed.

(** Every produced rectangle lies inside the one it came from ... *)
Lemma split_or_keep_inside rect s :
  s ∈ split_or_keep component x y rect → contains rect s = true.
Proof.
  intros Hs%split_or_keep_cases. apply contains_spec.
  destruct rect as [rx ry rw rh]. simpl in *.
  break_cases; subst; simpl; lia.
Qed.

(** ... and shares no cell with the placed box. *)
Lemma split_or_keep_avoids rect s px py :
  s ∈ split_or_keep component x y rect →
  ¬ (in_rectangle s px py ∧ in_box x y w h px py).
Proof.
  intros Hs%split_or_keep_cases. unfold in_rectangle, in_box.
  destruct rect as [rx ry rw rh]. simpl in *.
  break_cases; subst; simpl; lia.
Qed.

(** Every cell of a pool rectangle is in the placed box or in one of the
    rectangles produced from it. *)
Lemma split_or_keep_covers rect px py :
  in_rectangle rect px py →
  in_box x y w h px py
  ∨ ∃ s, s ∈ split_or_keep component x y rect ∧ in_rectangle s px py.
Proof.
  unfold in_rectangle, in_box. intros Hin.
  destruct (decide (x <= px < x + w ∧ y <= py < y + h)) as [|Hout]; [by left|].
  right. setoid_rewrite split_or_keep_elem.
  setoid_rewrite split_free_rectangle_elem.
  destruct (intersects rect component x y) eqn:Hi.
  - apply intersects_spec in Hi.
    destruct (decide (px < x)); [|destruct (decide (x + w <= px));
      [|destruct (decide (py < y))]].
    + eexists. split; [right; split; [done|]; left; split; [lia|done]|]. simpl. lia.
    + eexists. split; [right; split; [done|]; right; left; split; [lia|done]|].
      simpl. lia.
    + eexists. split; [right; split; [done|]; right; right; left; split; [lia|done]|].
      simpl. lia.
    + eexists. split; [right; split; [done|]; right; right; right; split; [lia|done]|].
      simpl. lia.
  - exists rect. split; [by left | done].
Qed.

(** Two produced rectangles coincide only if they come from nested pool
    rectangles. *)
Lemma split_or_keep_clash (rect1 rect2 : Rectangle.t) s :
  s ∈ split_or_keep component x y rect1 →
  s ∈ split_or_keep component x y rect2 →
  contains rect1 rect2 = true ∨ contains rect2 rect1 = true.
Proof.
  intros H1%split_or_keep_cases H2%split_or_keep_cases.
  rewrite !contains_spec.
  destruct rect1 as [x1 y1 w1 h1], rect2 as [x2 y2 w2 h2]. simpl in *.
  break_cases; simplify_eq; simpl; lia.
Qed.

Lemma split_or_keep_NoDup rect : NoDup (split_or_keep component x y rect).
Proof.
  unfold split_or_keep. destruct (intersects rect component x y) eqn:Hi.
  - apply intersects_spec in Hi. unfold split_free_rectangle.
    rewrite !Z.gtb_ltb.
    destruct rect as [rx ry rw rh]. simpl in *.
    destruct (Z.ltb_spec rx x); destruct (Z.ltb_spec (x + w) (rx + rw));
      destruct (Z.ltb_spec ry y); destruct (Z.ltb_spec (y + h) (ry + rh));
      simpl; rewrite ?list.NoDup_cons, ?elem_of_cons, ?elem_of_nil;
      repeat split; try apply NoDup_nil_2;
      intros ?; break_cases; simplify_eq; lia.
  - apply NoDup_singleton.
Qed.

End Split.

(** ** The free-rectangle pool *)

Lemma elem_of_flat_map {A B} (f : A → list B) (l : list A) (b : B) :
  b ∈ flat_map f l ↔ ∃ a, a ∈ l ∧ b ∈ f a.
Proof.
  rewrite list_elem_of_In, in_flat_map.
  by setoid_rewrite list_elem_of_In.
Qed.

Lemma existsb_true {A} (f : A → bool) (l : list A) :
  existsb f l = true → ∃ a, a ∈ l ∧ f a = true.
Proof.
  rewrite existsb_exists. intros (a & Ha & Hf). exists a.
  by rewrite list_elem_of_In.
Qed.

Lemma contains_in_rectangle (a b : Rectangle.t) px py :
  contains a b = true → in_rectangle b px py → in_rectangle a px py.
Proof. rewrite contains_spec. unfold in_rectangle, in_box. lia. Qed.

Lemma contains_extent (a b : Rectangle.t) :
  contains a b = true → a ≠ b → extent b < extent a.
Proof.
  rewrite contains_spec. unfold extent. intros H Hne.
  destruct (decide (Rectangle.width b + Rectangle.height b
                    < Rectangle.width a + Rectangle.height a)) as [|Hge]; [done|].
  exfalso. apply Hne. destruct a, b; simpl in *. f_equal; lia.
Qed.

Lemma extent_bound (l : list Rectangle.t) : ∃ M, ∀ r, r ∈ l → extent r <= M.
Proof.
  induction l as [|a l [M HM]].
  - exists 0. intros r Hr. inversion Hr.
  - exists (Z.max (extent a) M). intros r [->|Hr]%elem_of_cons; [lia|].
    specialize (HM r Hr). lia.
Qed.

(** On a list without repetitions pruning loses no area: every rectangle
    is contained in a surviving one. *)
Lemma remove_redundant_rectangles_covers (l : list Rectangle.t) (r : Rectangle.t) :
  NoDup l → r ∈ l →
  ∃ m, m ∈ remove_redundant_rectangles l ∧ contains m r = true.
Proof.
  intros Hnd. destruct (extent_bound l) as [M HM].
  remember (Z.to_nat (M - extent r)) as n eqn:Hn.
  revert r Hn. induction n as [n IH] using lt_wf_ind. intros r Hn Hr.
  destruct (list_elem_of_split _ _ Hr) as (p & q & Hl).
  destruct (existsb (fun rect2 => contains rect2 r) (p ++ q)) eqn:E.
  - apply existsb_true in E as (r2 & Hr2 & Hc).
    assert (r2 ≠ r) as Hne.
    { intros ->. rewrite Hl in Hnd.
      apply list.NoDup_app in Hnd as (_ & Hpq & Hq%list.NoDup_cons).
      apply elem_of_app in Hr2 as [Hp|Hq'].
      - apply (Hpq r Hp). left.
      - by destruct Hq. }
    assert (r2 ∈ l) as Hr2l.
    { rewrite Hl. apply elem_of_app in Hr2 as [?|?]; apply elem_of_app;
        [by left | right; by right]. }
    pose proof (contains_extent _ _ Hc Hne) as Hext.
    pose proof (HM r2 Hr2l) as Hb.
    destruct (IH (Z.to_nat (M - extent r2))) with (r := r2) as (m & Hm & Hmc);
      [lia | done | done |].
    exists m. split; [done|]. by eapply contains_trans.
  - exists r. split; [|apply contains_refl].
    rewrite remove_redundant_rectangles_split. apply prune_split_elem.
    by exists p, q.
Qed.

Lemma antichain_elem (l : list Rectangle.t) (a b : Rectangle.t) :
  antichain l → a ∈ l → b ∈ l → contains a b = true → a = b.
Proof.
  induction l as [|r l IH]; simpl; [intros _ Ha; inversion Ha|].
  intros [Hr Hac] [->|Ha]%elem_of_cons [->|Hb]%elem_of_cons Hc; [done| | |by apply IH].
  - destruct (Hr b Hb) as [H _]. congruence.
  - destruct (Hr a Ha) as [_ H]. congruence.
Qed.

Lemma split_or_keep_flat_NoDup component x y (pool : list Rectangle.t) :
  antichain pool →
  NoDup (flat_map (split_or_keep component x y) pool).
Proof.
  induction pool as [|r pool IH]; simpl; [intros _; apply NoDup_nil_2|].
  intros [Hr Hac]. apply list.NoDup_app. split; [|split].
  - by apply split_or_keep_NoDup.
  - intros s Hs (r' & Hr' & Hs')%elem_of_flat_map.
    destruct (Hr r' Hr') as [H1 H2].
    destruct (split_or_keep_clash component x y r r' s Hs Hs'); congruence.
  - by apply IH.
Qed.

Lemma in_component_set_position c x y px py :
  in_component (Component.set_position x y c) px py
  ↔ in_box x y (Component.width c) (Component.height c) px py.
Proof. reflexivity. Qed.

(** A commit of an object that is not yet placed keeps the pool invariant. *)
Lemma commit_pool_invariant heap self component x y :
  pool_invariant heap self →
  component ∉ placed_components self →
  pool_invariant (commit heap self component x y).1 (commit heap self component x y).2.
Proof.
  intros (Hdis & Hcov & Hac) Hfresh.
  unfold commit, pool_invariant, pool_disjoint_from_placed, board_covered, in_board.
  cbn [fst snd placed_components board_width board_height free_rectangles].
  rewrite fn_lookup_insert.
  set (c' := Component.set_position x y (heap component)).
  assert (∀ l, l ∈ placed_components self → <[component:=c']> heap l = heap l) as Hframe.
  { intros l Hl. apply fn_lookup_insert_ne. by intros ->. }
  unfold update_free_rectangles.
  set (new := flat_map (split_or_keep c' x y) (free_rectangles self)).
  assert (NoDup new) as Hnd by (by apply split_or_keep_flat_NoDup).
  split; [|split].
  - intros r l px py Hr%remove_redundant_rectangles_subset Hl [Hinr Hinc].
    apply elem_of_flat_map in Hr as (r0 & Hr0 & Hr).
    apply elem_of_app in Hl as [Hl|Hl].
    + rewrite Hframe in Hinc by done.
      apply (Hdis r0 l px py Hr0 Hl). split; [|done].
      eapply contains_in_rectangle; [|exact Hinr].
      by eapply split_or_keep_inside.
    + apply list_elem_of_singleton in Hl as ->. rewrite fn_lookup_insert in Hinc.
      by apply (split_or_keep_avoids c' x y r0 r px py Hr).
  - intros px py Hb.
    destruct (Hcov px py Hb) as [(r0 & Hr0 & Hin) | (l & Hl & Hin)].
    + destruct (split_or_keep_covers c' x y r0 px py Hin) as [Hc | (s & Hs & Hins)].
      * right. exists component. split; [apply elem_of_app; right; left|].
        by rewrite fn_lookup_insert.
      * left.
        destruct (remove_redundant_rectangles_covers new s Hnd) as (m & Hm & Hms).
        { apply elem_of_flat_map. by exists r0. }
        exists m. split; [done|]. by eapply contains_in_rectangle.
    + right. exists l. split; [apply elem_of_app; by left|].
      by rewrite Hframe.
  - apply remove_redundant_rectangles_antichain.
Qed.

Lemma place_component_placed heap self component l :
  l ∈ placed_components (place_component heap self component).2.2 →
  l ∈ placed_components self ∨ l = component.
Proof.
  rewrite place_component_unfold. destruct (found _); simpl; [|by left].
  intros [Hl|Hl]%elem_of_app; [by left|].
  right. by apply list_elem_of_singleton in Hl.
Qed.

Lemma place_component_pool_invariant heap self component :
  pool_invariant heap self →
  component ∉ placed_components self →
  pool_invariant (place_component heap self component).2.1
                 (place_component heap self component).2.2.
Proof.
  intros Hinv Hfresh. rewrite place_component_unfold.
  destruct (found _); [|done]. by apply commit_pool_invariant.
Qed.

Lemma try_positions_pool_invariant heap self mb2 positions :
  pool_invariant heap self →
  mb2 ∉ placed_components self →
  pool_invariant (try_positions heap self mb2 positions).2.1
                 (try_positions heap self mb2 positions).2.2.
Proof.
  intros Hinv Hfresh. induction positions as [|[x y] rest IH]; simpl; [done|].
  destruct (is_position_valid heap self (heap mb2) x y); [|done].
  by apply commit_pool_invariant.
Qed.

Lemma force_mikrobus_placement_pool_invariant heap self mb1 mb2 :
  pool_invariant heap self →
  mb1 ∉ placed_components self → mb2 ∉ placed_components self → mb1 ≠ mb2 →
  pool_invariant (force_mikrobus_placement heap self mb1 mb2).2.1
                 (force_mikrobus_placement heap self mb1 mb2).2.2.
Proof.
  intros Hinv H1 H2 Hne. rewrite force_mikrobus_placement_unfold.
  pose proof (place_component_pool_invariant heap self mb1 Hinv H1) as Hinv1.
  destruct (place_component heap self mb1).1; [|done].
  apply try_positions_pool_invariant; [done|].
  intros [?| ->]%place_component_placed; done.
Qed.

Lemma exec_pool_invariant st c :
  pool_invariant st.1 st.2 →
  NoDup (call_objects c) →
  (∀ l, l ∈ call_objects c → l ∉ placed_components st.2) →
  pool_invariant (exec st c).1 (exec st c).2.
Proof.
  intros Hinv Hnd Hfresh. destruct c as [component | mb1 mb2]; simpl in *.
  - apply place_component_pool_invariant; [done|]. apply Hfresh. left.
  - apply force_mikrobus_placement_pool_invariant; [done| | |].
    + apply Hfresh. left.
    + apply Hfresh. right. left.
    + apply list.NoDup_cons in Hnd as [Hnd _]. intros ->. apply Hnd. left.
Qed.

Lemma init_pool_invariant board_width board_height heap :
  pool_invariant heap (init board_width board_height).
Proof.
  split; [|split].
  - intros r l px py _ Hl. inversion Hl.
  - intros px py Hb. left. eexists. split; [left | exact Hb].
  - simpl. split; [|done]. intros r Hr. inversion Hr.
Qed.

Lemma run_pool_invariant calls st :
  pool_invariant st.1 st.2 →
  places_once calls st = true →
  pool_invariant (run calls st).1 (run calls st).2.
Proof.
  revert st. induction calls as [|c calls IH]; intros st Hinv Honce; [done|].
  simpl in Honce. apply andb_true_iff in Honce as [[Hnd Hfresh]%andb_true_iff Hrest].
  apply bool_decide_eq_true in Hnd. rewrite forallb_forall in Hfresh.
  apply (IH (exec st c)); [|done].
  apply exec_pool_invariant; [done | done |].
  intros l Hl. apply list_elem_of_In, Hfresh in Hl.
  by apply bool_decide_eq_true in Hl.
Qed.

(** C2 (amended). Free-pool invariant.  Starting from a fresh placer,
    after any sequence of placements in which no object already placed is
    placed again, every pool rectangle is disjoint from every placed component,
    and every cell of the board lies in a pool rectangle or in a placed
    component: no area is lost, pruning included. *)
Theorem pool_invariant_holds (board_width board_height : Z) (heap : store)
    (calls : list call) :
  places_once calls (heap, init board_width board_height) = true →
  pool_disjoint_from_placed (run calls (heap, init board_width board_height)).1
                            (run calls (heap, init board_width board_height)).2
  ∧ board_covered (run calls (heap, init board_width board_height)).1
                  (run calls (heap, init board_width board_height)).2.
Proof.
  intros Honce.
  destruct (run_pool_invariant calls (heap, init board_width board_height)
              (init_pool_invariant board_width board_height heap) Honce)
    as (Hdis & Hcov & _).
  by split.
Qed.

(** ** The candidate grid of the paired placement *)

Lemma grid_eq : grid = [0; 5; 10; 15; 20; 25; 30; 35; 40; 45].
Proof. reflexivity. Qed.

(** The candidates do not depend on the board or on the partner: whatever
    the sizes, they are the ten points with one coordinate 0 or 45 and the
    other a multiple of 5 up to 45. *)
Lemma target_positions_fixed self mb1 p :
  p ∈ target_positions self mb1 →
  (p.1 = 45 ∨ p.1 = 0 ∨ p.2 = 45 ∨ p.2 = 0) ∧ 0 <= p.1 <= 45 ∧ 0 <= p.2 <= 45.
Proof.
  unfold target_positions.
  repeat destruct (_ =? _); [| | | |intros H; inversion H];
    intros (v & -> & Hv)%list_elem_of_fmap; simpl;
    rewrite grid_eq, ?elem_of_cons, ?elem_of_nil in Hv;
    break_cases; subst; try done; lia.
Qed.

(** C3 (the code departs from the claim).  On a 100 by 100 board with the
    5 by 5 connectors of the demonstration the anchor lands on the left
    edge at (0, 0) and the partner is committed at (45, 0): in the middle
    of the top edge, not on the right edge, and the engine's own
    [check_mikrobus_parallel_constraint] rejects the pair.  On the 50 by 50
    board with a 10 by 10 partner the call fails although the right-edge
    position (40, 0) passes the validator: every candidate has x = 45. *)
Theorem force_mikrobus_placement_fixed_grid :
  (force_mikrobus_placement create_components (init 100 100) 1%nat 2%nat).1 = true
  ∧ Component.x
      ((force_mikrobus_placement create_components (init 100 100) 1%nat 2%nat).2.1 1%nat)
    = 0
  ∧ Component.x
      ((force_mikrobus_placement create_components (init 100 100) 1%nat 2%nat).2.1 2%nat)
    = 45
  ∧ Component.y
      ((force_mikrobus_placement create_components (init 100 100) 1%nat 2%nat).2.1 2%nat)
    = 0
  ∧ check_mikrobus_parallel_constraint
      (force_mikrobus_placement create_components (init 100 100) 1%nat 2%nat).2.2
      ((force_mikrobus_placement create_components (init 100 100) 1%nat 2%nat).2.1 1%nat)
      ((force_mikrobus_placement create_components (init 100 100) 1%nat 2%nat).2.1 2%nat)
    = false
  ∧ (force_mikrobus_placement wide_pair (init 50 50) 1%nat 2%nat).1 = false
  ∧ is_position_valid (place_component wide_pair (init 50 50) 1%nat).2.1
      (place_component wide_pair (init 50 50) 1%nat).2.2 wide_partner 40 0
    = true.
Proof. repeat split; vm_compute; reflexivity. Qed.

(** ** The assumption of the free-pool invariant *)

(** C2 as the claim states it fails.  Placing one object twice succeeds
    both times and moves the object from (0, 0) to (5, 0): the cells it
    leaves are neither in the pool nor under a placed component.  This is
    why the free-pool invariant is stated for runs that satisfy
    [places_once]. *)
Example replacement_uncovers_board :
  place_component create_components (init 10 10) 0%nat
  = (true, run [Place 0%nat] (create_components, init 10 10))
  ∧ place_component (run [Place 0%nat] (create_components, init 10 10)).1
                    (run [Place 0%nat] (create_components, init 10 10)).2 0%nat
    = (true, run [Place 0%nat; Place 0%nat] (create_components, init 10 10))
  ∧ places_once [Place 0%nat; Place 0%nat] (create_components, init 10 10) = false
  ∧ ¬ board_covered (run [Place 0%nat; Place 0%nat] (create_components, init 10 10)).1
                    (run [Place 0%nat; Place 0%nat] (create_components, init 10 10)).2.
Proof.
  split; [vm_compute; reflexivity|].
  split; [vm_compute; reflexivity|].
  split; [vm_compute; reflexivity|].
  intros H.
  assert (in_board (run [Place 0%nat; Place 0%nat] (create_components, init 10 10)).2 0 0)
    as Hb by (unfold in_board, in_box; simpl; lia).
  assert (free_rectangles (run [Place 0%nat; Place 0%nat] (create_components, init 10 10)).2
          = [Rectangle.mk 0 5 10 5]) as Efree by reflexivity.
  assert (placed_components (run [Place 0%nat; Place 0%nat] (create_components, init 10 10)).2
          = [0%nat; 0%nat]) as Eplaced by reflexivity.
  assert (Component.x ((run [Place 0%nat; Place 0%nat] (create_components, init 10 10)).1 0%nat)
          = 5) as Ex by reflexivity.
  destruct (H 0 0 Hb) as [(r & Hr & Hin) | (l & Hl & Hin)].
  - rewrite Efree in Hr. apply list_elem_of_singleton in Hr as ->.
    unfold in_rectangle, in_box in Hin. simpl in Hin. lia.
  - rewrite Eplaced, !elem_of_cons, elem_of_nil in Hl.
    assert (l = 0%nat) as -> by tauto.
    unfold in_component, in_box in Hin. rewrite Ex in Hin. lia.
Qed.

(** ** The theorems at concrete inputs *)

(** C2 on the demonstration run. *)
Lemma pool_invariant_holds_witness :
  places_once demo_calls (create_components, init 50 50) = true
  ∧ pool_disjoint_from_placed (run demo_calls (create_components, init 50 50)).1
                              (run demo_calls (create_components, init 50 50)).2
  ∧ board_covered (run demo_calls (create_components, init 50 50)).1
                  (run demo_calls (create_components, init 50 50)).2.
Proof.
  assert (places_once demo_calls (create_components, init 50 50) = true) as H
    by (vm_compute; reflexivity).
  split; [exact H|].
  exact (pool_invariant_holds 50 50 create_components demo_calls H).
Defined.

(** C4 on the first placement of the demonstration. *)
Lemma place_component_spec_witness :
  ∃ heuristic x y score,
    heuristic ∈ heuristics
    ∧ heuristic create_components (init 50 50) (create_components 0%nat) = (x, y, score)
    ∧ x ≠ -1
    ∧ (place_component create_components (init 50 50) 0%nat).2
      = commit create_components (init 50 50) 0%nat x y
    ∧ Component.x ((place_component create_components (init 50 50) 0%nat).2.1 0%nat) = x
    ∧ Component.y ((place_component create_components (init 50 50) 0%nat).2.1 0%nat) = y
    ∧ (place_component create_components (init 50 50) 0%nat).2.1 0%nat
      = Component.set_position x y (create_components 0%nat)
    ∧ (∀ l, l ≠ 0%nat →
         (place_component create_components (init 50 50) 0%nat).2.1 l
         = create_components l)
    ∧ placed_components (place_component create_components (init 50 50) 0%nat).2.2
      = placed_components (init 50 50) ++ [0%nat]
    ∧ free_rectangles (place_component create_components (init 50 50) 0%nat).2.2
      = remove_redundant_rectangles
          (flat_map
             (split_or_keep
                ((place_component create_components (init 50 50) 0%nat).2.1 0%nat) x y)
             (free_rectangles (init 50 50)))
    ∧ board_width (place_component create_components (init 50 50) 0%nat).2.2
      = board_width (init 50 50)
    ∧ board_height (place_component create_components (init 50 50) 0%nat).2.2
      = board_height (init 50 50)
    ∧ ∀ other x' y' score',
        other ∈ heuristics →
        other create_components (init 50 50) (create_components 0%nat)
        = (x', y', score') →
        x' ≠ -1 → num_lt score' score = false.
Proof.
  apply (proj2 (proj2 (proj2 (proj2
           (place_component_spec create_components (init 50 50) 0%nat))))).
  vm_compute. reflexivity.
Defined.

(** C5 on a 50 by 50 board with a 10 by 10 partner: the anchor lands at
    (0, 0), no candidate (45, y) keeps the partner on the board, the call
    fails and the anchor stays placed. *)
Lemma force_mikrobus_placement_no_rollback_witness :
  place_component wide_pair (init 50 50) 1%nat
  = (true, (place_component wide_pair (init 50 50) 1%nat).2)
  ∧ force_mikrobus_placement wide_pair (init 50 50) 1%nat 2%nat
    = (false, (place_component wide_pair (init 50 50) 1%nat).2)
  ∧ placed_components (place_component wide_pair (init 50 50) 1%nat).2.2 = [1%nat].
Proof.
  assert (place_component wide_pair (init 50 50) 1%nat
          = (true, (place_component wide_pair (init 50 50) 1%nat).2)) as H1
    by (vm_compute; reflexivity).
  assert (force_mikrobus_placement wide_pair (init 50 50) 1%nat 2%nat
          = (false, (place_component wide_pair (init 50 50) 1%nat).2)) as H2
    by (vm_compute; reflexivity).
  split; [exact H1|]. split; [exact H2|].
  exact (proj1 (proj2 (force_mikrobus_placement_no_rollback _ _ _ _ _ _ H1 H2))).
Defined.

(** C6 on a component larger than the board. *)
Lemma place_component_failure_witness :
  place_component oversized (init 50 50) 0%nat = (false, (oversized, init 50 50)).
Proof.
  apply (proj1 (place_component_failure oversized (init 50 50) 0%nat)).
  apply heuristics_cases; vm_compute; reflexivity.
Defined.


(** C9 on a pool holding one rectangle twice. *)
Lemma remove_redundant_rectangles_drops_duplicates_witness :
  Rectangle.mk 0 0 5 5
  ∉ remove_redundant_rectangles
      [Rectangle.mk 0 0 5 5; Rectangle.mk 7 7 1 1; Rectangle.mk 0 0 5 5].
Proof.
  refine (proj1 (proj1 remove_redundant_rectangles_drops_duplicates
                   _ 0%nat 2%nat _ (Rectangle.mk 0 0 5 5) _ _ _ _ _)).
  - reflexivity.
  - reflexivity.
  - discriminate.
  - reflexivity.
  - reflexivity.
Defined.


(** The demonstration is the run of [demo_calls] on a 50 by 50 board. *)
Example solve_pcb_placement_run :
  solve_pcb_placement = Some (run demo_calls (create_components, init 50 50)).
Proof. vm_compute. reflexivity. Qed.

(** * Further properties of the engine *)

(** ** What a call does to the state: a sequence of validated commits *)

Lemma place_component_cases heap self component :
  place_component heap self component = (false, (heap, self))
  ∨ ∃ x y, is_position_valid heap self (heap component) x y = true
           ∧ place_component heap self component
             = (true, commit heap self component x y).
Proof.
  rewrite place_component_unfold. destruct (found _) eqn:Hc; [right | by left].
  eexists _, _. split; [by apply choose_valid | done].
Qed.

Lemma try_positions_cases heap self mb2 positions :
  try_positions heap self mb2 positions = (false, (heap, self))
  ∨ ∃ x y, is_position_valid heap self (heap mb2) x y = true
           ∧ try_positions heap self mb2 positions = (true, commit heap self mb2 x y).
Proof.
  induction positions as [|[x y] rest IH]; simpl; [by left|].
  destruct (is_position_valid heap self (heap mb2) x y) eqn:Hv; [|done].
  right. by exists x, y.
Qed.

Lemma commit_placed heap self component x y :
  placed_components (commit heap self component x y).2
  = placed_components self ++ [component].
Proof. reflexivity. Qed.

Lemma commit_other heap self component x y l :
  l ≠ component → (commit heap self component x y).1 l = heap l.
Proof. intros Hne. unfold commit. cbn [fst]. by apply fn_lookup_insert_ne. Qed.

Lemma commit_self heap self component x y :
  (commit heap self component x y).1 component
  = Component.set_position x y (heap component).
Proof. unfold commit. cbn [fst]. apply fn_lookup_insert. Qed.

(** A property kept by every validated commit is kept by every call. *)
Lemma exec_commits (P : (loc → Component.t) * PCBPlacer → Prop) st c :
  (∀ heap self l x y,
     P (heap, self) → is_position_valid heap self (heap l) x y = true →
     P (commit heap self l x y)) →
  P st → P (exec st c).
Proof.
  intros Hstep HP. destruct st as [heap self].
  destruct c as [component | mb1 mb2]; simpl.
  - destruct (place_component_cases heap self component) as [-> | (x & y & Hv & ->)];
      cbn [fst snd]; auto.
  - rewrite force_mikrobus_placement_unfold.
    destruct (place_component_cases heap self mb1) as [-> | (x & y & Hv & ->)];
      cbn [fst snd]; [done|].
    pose proof (Hstep heap self mb1 x y HP Hv) as H1.
    destruct (commit heap self mb1 x y) as [heap1 self1]. cbn [fst snd].
    destruct (try_positions_cases heap1 self1 mb2
                (target_positions self1 (heap1 mb1))) as [-> | (x' & y' & Hv' & ->)];
      cbn [fst snd]; auto.
Qed.

(** The same when the call is handed objects that are not yet placed:
    every commit is then the commit of an object that is not yet placed. *)
Lemma exec_commits_fresh (P : (loc → Component.t) * PCBPlacer → Prop) st c :
  NoDup (call_objects c) →
  (∀ l, l ∈ call_objects c → l ∉ placed_components st.2) →
  (∀ heap self l x y,
     P (heap, self) → l ∉ placed_components self →
     is_position_valid heap self (heap l) x y = true →
     P (commit heap self l x y)) →
  P st → P (exec st c).
Proof.
  intros Hnd Hfresh Hstep HP. destruct st as [heap self]. simpl in Hfresh.
  destruct c as [component | mb1 mb2]; simpl in *.
  - destruct (place_component_cases heap self component) as [-> | (x & y & Hv & ->)];
      cbn [fst snd]; [done|].
    apply Hstep; [done | apply Hfresh; left | done].
  - rewrite force_mikrobus_placement_unfold.
    destruct (place_component_cases heap self mb1) as [-> | (x & y & Hv & ->)];
      cbn [fst snd]; [done|].
    assert (mb1 ∉ placed_components self) as F1 by (apply Hfresh; left).
    assert (mb2 ∉ placed_components self) as F2 by (apply Hfresh; right; left).
    assert (mb1 ≠ mb2) as Hne.
    { apply list.NoDup_cons in Hnd as [Hnd _]. intros ->. apply Hnd. left. }
    pose proof (Hstep heap self mb1 x y HP F1 Hv) as H1.
    assert (mb2 ∉ placed_components (commit heap self mb1 x y).2) as F2'.
    { rewrite commit_placed. intros [?|?%list_elem_of_singleton]%elem_of_app; done. }
    destruct (commit heap self mb1 x y) as [heap1 self1]. cbn [fst snd].
    destruct (try_positions_cases heap1 self1 mb2
                (target_positions self1 (heap1 mb1))) as [-> | (x' & y' & Hv' & ->)];
      cbn [fst snd]; auto.
Qed.

Lemma run_commits (P : (loc → Component.t) * PCBPlacer → Prop) calls st :
  (∀ heap self l x y,
     P (heap, self) → is_position_valid heap self (heap l) x y = true →
     P (commit heap self l x y)) →
  P st → P (run calls st).
Proof.
  intros Hstep. revert st. induction calls as [|c calls IH]; intros st HP; [done|].
  apply IH. by apply exec_commits.
Qed.

Lemma places_once_cons c calls st :
  places_once (c :: calls) st = true ↔
  NoDup (call_objects c)
  ∧ (∀ l, l ∈ call_objects c → l ∉ placed_components st.2)
  ∧ places_once calls (exec st c) = true.
Proof.
  simpl. rewrite !andb_true_iff, bool_decide_eq_true, forallb_forall.
  setoid_rewrite bool_decide_eq_true. setoid_rewrite <- list_elem_of_In. tauto.
Qed.

Lemma run_commits_fresh (P : (loc → Component.t) * PCBPlacer → Prop) calls st :
  places_once calls st = true →
  (∀ heap self l x y,
     P (heap, self) → l ∉ placed_components self →
     is_position_valid heap self (heap l) x y = true →
     P (commit heap self l x y)) →
  P st → P (run calls st).
Proof.
  intros Honce Hstep. revert st Honce.
  induction calls as [|c calls IH]; intros st Honce HP; [done|].
  apply places_once_cons in Honce as (Hnd & Hfresh & Hrest).
  apply IH; [done|]. by apply exec_commits_fresh.
Qed.

(** ** The edge constraint *)

Lemma commit_edge_invariant heap self component x y :
  edge_invariant heap self →
  is_position_valid heap self (heap component) x y = true →
  edge_invariant (commit heap self component x y).1 (commit heap self component x y).2.
Proof.
  intros Hinv Hv l Hl.
  apply is_position_valid_true in Hv as (_ & _ & _ & _ & _ & He & _).
  rewrite commit_placed in Hl.
  destruct (decide (l = component)) as [->|Hne].
  - rewrite commit_self. exact He.
  - rewrite commit_other by done. apply Hinv.
    apply elem_of_app in Hl as [?|?%list_elem_of_singleton]; done.
Qed.

(** X1. After any sequence of calls on a fresh placer, every placed
    component whose [must_be_on_edge] flag is set touches an edge of the
    board: x = 0, y = 0, x + width = board_width or
    y + height = board_height. *)
Theorem edge_constraint_holds (board_width board_height : Z) (heap : store)
    (calls : list call) :
  edge_invariant (run calls (heap, init board_width board_height)).1
                 (run calls (heap, init board_width board_height)).2.
Proof.
  apply (run_commits (fun st => edge_invariant st.1 st.2)).
  - intros h s l x y. apply commit_edge_invariant.
  - intros l Hl. inversion Hl.
Qed.

(** ** What the engine never does *)

Lemma set_position_same_but_position x y c :
  same_but_position (Component.set_position x y c) c.
Proof. by repeat split. Qed.

(** X2. No sequence of calls removes or reorders a placed component,
    changes the size of the board, or changes any field of any component
    other than its position: the placed list only grows at its end and
    names, sizes and constraints stay as the caller set them. *)
Theorem run_only_adds (calls : list call) (st : (loc → Component.t) * PCBPlacer) :
  placed_components st.2 `prefix_of` placed_components (run calls st).2
  ∧ board_width (run calls st).2 = board_width st.2
  ∧ board_height (run calls st).2 = board_height st.2
  ∧ ∀ l, same_but_position ((run calls st).1 l) (st.1 l).
Proof.
  apply (run_commits
           (fun st' =>
              placed_components st.2 `prefix_of` placed_components st'.2
              ∧ board_width st'.2 = board_width st.2
              ∧ board_height st'.2 = board_height st.2
              ∧ ∀ l, same_but_position (st'.1 l) (st.1 l))).
  - intros heap self l x y (Hpre & Hw & Hh & Hsame) _. cbn [fst snd] in *.
    rewrite commit_placed. split; [by apply prefix_app_r|].
    split; [done|]. split; [done|].
    intros l0. destruct (decide (l0 = l)) as [->|Hne].
    + rewrite commit_self. specialize (Hsame l).
      unfold same_but_position in *. simpl. done.
    + rewrite commit_other by done. apply Hsame.
  - split; [done|]. repeat split.
Qed.

(** X3. In a run that never hands the engine an object that is already
    placed, no object appears twice in the placed list and no placed
    component is ever moved: every object placed before the run still has
    exactly the record it had. *)
Theorem placed_never_moves (calls : list call) (st : (loc → Component.t) * PCBPlacer) :
  places_once calls st = true →
  NoDup (placed_components st.2) →
  NoDup (placed_components (run calls st).2)
  ∧ ∀ l, l ∈ placed_components st.2 → (run calls st).1 l = st.1 l.
Proof.
  intros Honce Hnd.
  enough ((∀ l, l ∈ placed_components st.2 → l ∈ placed_components (run calls st).2)
          ∧ NoDup (placed_components (run calls st).2)
          ∧ ∀ l, l ∈ placed_components st.2 → (run calls st).1 l = st.1 l)
    as (_ & H1 & H2) by done.
  apply (run_commits_fresh
           (fun st' =>
              (∀ l, l ∈ placed_components st.2 → l ∈ placed_components st'.2)
              ∧ NoDup (placed_components st'.2)
              ∧ ∀ l, l ∈ placed_components st.2 → st'.1 l = st.1 l)); [done | |done].
  intros heap self l x y (Hsub & Hnd' & Hsame) Hfresh _. cbn [fst snd] in *.
  rewrite commit_placed. split; [|split].
  - intros l0 Hl0. apply elem_of_app. left. by apply Hsub.
  - apply list.NoDup_app. split; [done|]. split; [|apply NoDup_singleton].
    intros l0 Hl0 ->%list_elem_of_singleton. done.
  - intros l0 Hl0. rewrite commit_other; [by apply Hsame|].
    intros ->. by apply Hfresh, Hsub.
Qed.

(** ** The reporting checks on reachable states *)

Lemma boundary_check_true self heap (ls : list loc) :
  (∀ l, l ∈ ls → within_board self (heap l)) →
  boundary_check self (map heap ls) = true.
Proof.
  unfold boundary_check. induction ls as [|l ls IH]; intros H; simpl; [done|].
  rewrite IH by (intros l' Hl'; apply H; by right).
  destruct (H l) as (Hx & Hy & Hw & Hh); [left|].
  unfold within_bounds. rewrite !andb_true_r, !andb_true_iff, !Z.leb_le. done.
Qed.

Lemma no_overlap_true (a b : Component.t) : separated a b → no_overlap a b = true.
Proof.
  unfold separated, no_overlap.
  rewrite !orb_true_iff, !Z.geb_le, !Z.leb_le. lia.
Qed.

Lemma overlap_check_true heap (ls : list loc) :
  NoDup ls →
  (∀ l1 l2, l1 ∈ ls → l2 ∈ ls → l1 ≠ l2 → separated (heap l1) (heap l2)) →
  overlap_check (map heap ls) = true.
Proof.
  induction ls as [|l ls IH]; intros Hnd H; simpl; [done|].
  apply list.NoDup_cons in Hnd as [Hl Hnd].
  rewrite IH; [|done|]; last first.
  { intros l1 l2 H1 H2. apply H; by right. }
  rewrite andb_true_r. apply forallb_forall.
  intros c (l' & <- & Hl')%in_map_iff. apply list_elem_of_In in Hl'.
  apply no_overlap_true, H; [left | by right | by intros ->].
Qed.

Lemma edge_check_true self heap (ls : list loc) :
  (∀ l, l ∈ ls → Component.must_be_on_edge (heap l) = true →
        on_edge self (heap l) (Component.x (heap l)) (Component.y (heap l)) = true) →
  edge_check self (map heap ls) = true.
Proof.
  unfold edge_check. induction ls as [|l ls IH]; intros H; simpl; [done|].
  specialize (IH (fun l' Hl' => H l' (list_elem_of_further _ _ _ Hl'))).
  destruct (Component.must_be_on_edge (heap l)) eqn:Hm; [|done].
  simpl. rewrite IH, andb_true_r. apply H; [left | done].
Qed.

Lemma run_placed_invariant calls st :
  placed_invariant st.1 st.2 → placed_invariant (run calls st).1 (run calls st).2.
Proof.
  apply (run_commits (fun st => placed_invariant st.1 st.2)).
  intros heap self l x y. apply commit_placed_invariant.
Qed.

Lemma run_edge_invariant calls st :
  edge_invariant st.1 st.2 → edge_invariant (run calls st).1 (run calls st).2.
Proof.
  apply (run_commits (fun st => edge_invariant st.1 st.2)).
  intros heap self l x y. apply commit_edge_invariant.
Qed.

(** ** Boards on which nothing raises *)

Lemma commit_small_board heap self l x y :
  small_board heap self →
  is_position_valid heap self (heap l) x y = true →
  small_board (commit heap self l x y).1 (commit heap self l x y).2.
Proof.
  intros (HW & HH & Hsize & Hin) Hv.
  apply is_position_valid_true in Hv as (Hx & Hy & Hxw & Hyh & _).
  unfold small_board, commit.
  cbn [fst snd board_width board_height placed_components].
  split; [done|]. split; [done|]. split.
  - intros l'. destruct (decide (l' = l)) as [->|Hne].
    + rewrite fn_lookup_insert. apply Hsize.
    + rewrite fn_lookup_insert_ne by done. apply Hsize.
  - intros l' Hl'. destruct (decide (l' = l)) as [->|Hne].
    + rewrite fn_lookup_insert. unfold within_board. simpl. lia.
    + unfold within_board. cbn [board_width board_height].
      rewrite fn_lookup_insert_ne by done. apply Hin.
      apply elem_of_app in Hl' as [Hl'|Hl']; [done|].
      apply list_elem_of_singleton in Hl'. done.
Qed.

Lemma small_board_validator heap self component x y :
  small_board heap self →
  0 <= Component.width component → 0 <= Component.height component →
  is_position_valid_raises heap self component x y = false.
Proof.
  intros (HW & HH & Hsize & Hin) Hw Hh.
  apply is_position_valid_never_raises; try done.
  intros l Hl. split; [by apply Hin | apply Hsize].
Qed.

Lemma small_board_place_component heap self component :
  small_board heap self → place_component_raises heap self component = false.
Proof.
  intros Hs. unfold place_component_raises.
  apply not_true_is_false. intros (rect & _ & H)%existsb_exists.
  apply andb_true_iff in H as [_ H].
  destruct Hs as (HW & HH & Hsize & Hin).
  rewrite small_board_validator in H; [done | done | apply Hsize | apply Hsize].
Qed.

Lemma small_board_try_positions heap self mb2 positions :
  small_board heap self → try_positions_raises heap self mb2 positions = false.
Proof.
  intros Hs. induction positions as [|[x y] rest IH]; simpl; [done|].
  rewrite IH, andb_false_r, orb_false_r.
  destruct Hs as (HW & HH & Hsize & Hin).
  apply small_board_validator; [done | apply Hsize | apply Hsize].
Qed.

Lemma small_board_call st c :
  small_board st.1 st.2 → call_raises st c = false.
Proof.
  destruct st as [heap self]. intros Hs. destruct c as [component | mb1 mb2]; simpl.
  - by apply small_board_place_component.
  - unfold force_mikrobus_placement_raises.
    rewrite small_board_place_component by done. simpl.
    destruct (place_component_cases heap self mb1) as [-> | (x & y & Hv & ->)];
      [done|].
    pose proof (commit_small_board heap self mb1 x y Hs Hv) as H1.
    destruct (commit heap self mb1 x y) as [heap1 self1]. simpl.
    by apply small_board_try_positions.
Qed.

(** X24. From a fresh placer with sides below [2 ** 31], and with
    components of no negative size, no call of any run raises: the
    integer handed to [np.sqrt] stays below [2 ** 63], so on such boards
    the engine's functions are total, as they are here. *)
Theorem run_never_raises (board_width board_height : Z) (heap : store)
    (calls : list call) :
  board_width < 2 ^ 31 → board_height < 2 ^ 31 →
  (∀ l, 0 <= Component.width (heap l) ∧ 0 <= Component.height (heap l)) →
  run_raises calls (heap, init board_width board_height) = false.
Proof.
  intros HW HH Hsize.
  assert (small_board (heap, init board_width board_height).1
                      (heap, init board_width board_height).2) as Hs.
  { split; [done|]. split; [done|]. split; [exact Hsize|].
    intros l Hl. inversion Hl. }
  revert Hs. generalize (heap, init board_width board_height).
  induction calls as [|c calls IH]; intros st Hs; [done|].
  simpl. rewrite small_board_call by done. simpl. apply IH.
  apply (exec_commits (fun st => small_board st.1 st.2)); [|done].
  intros heap' self' l x y. apply commit_small_board.
Qed.

Lemma run_placed_NoDup calls st :
  places_once calls st = true →
  NoDup (placed_components st.2) → NoDup (placed_components (run calls st).2).
Proof.
  intros Honce.
  apply (run_commits_fresh (fun st => NoDup (placed_components st.2))); [done|].
  intros heap self l x y Hnd Hfresh _. rewrite commit_placed.
  apply list.NoDup_app. split; [done|]. split; [|apply NoDup_singleton].
  intros l0 Hl0 ->%list_elem_of_singleton. done.
Qed.

(** X4. On every state reached from a fresh placer by a run that places
    no object twice, the boundary, overlap and edge sections of
    [validate_all_constraints] all pass, so the verdict (or the
    [StopIteration]) is decided by the crystal-to-microcontroller distance
    and the MikroBus parallel check alone. *)
Theorem validate_all_constraints_reachable (board_width board_height : Z)
    (heap : store) (calls : list call) :
  places_once calls (heap, init board_width board_height) = true →
  boundary_check (run calls (heap, init board_width board_height)).2
    (map (run calls (heap, init board_width board_height)).1
         (placed_components (run calls (heap, init board_width board_height)).2))
  = true
  ∧ overlap_check
      (map (run calls (heap, init board_width board_height)).1
           (placed_components (run calls (heap, init board_width board_height)).2))
    = true
  ∧ edge_check (run calls (heap, init board_width board_height)).2
      (map (run calls (heap, init board_width board_height)).1
           (placed_components (run calls (heap, init board_width board_height)).2))
    = true
  ∧ validate_all_constraints (run calls (heap, init board_width board_height)).1
                             (run calls (heap, init board_width board_height)).2
    = proximity_and_parallel (run calls (heap, init board_width board_height)).1
                             (run calls (heap, init board_width board_height)).2.
Proof.
  intros Honce.
  set (st0 := (heap, init board_width board_height)) in *.
  assert (placed_invariant (run calls st0).1 (run calls st0).2) as [Hin Hsep].
  { apply run_placed_invariant. split; simpl; intros l; [|intros l2];
      intros Hl; inversion Hl. }
  assert (edge_invariant (run calls st0).1 (run calls st0).2) as Hedge.
  { apply run_edge_invariant. intros l Hl. inversion Hl. }
  assert (NoDup (placed_components (run calls st0).2)) as Hnd.
  { apply run_placed_NoDup; [done | apply NoDup_nil_2]. }
  pose proof (boundary_check_true _ _ _ Hin) as Hb.
  pose proof (overlap_check_true _ _ Hnd Hsep) as Ho.
  pose proof (edge_check_true _ _ _ Hedge) as He.
  repeat (split; [done|]).
  unfold validate_all_constraints, proximity_and_parallel. rewrite Hb, Ho, He.
  destruct (find_target _ _ "CRYSTAL"); [|done]. simpl.
  destruct (find_target _ _ "MICROCONTROLLER"); [|done]. simpl.
  destruct (find_target _ _ "MIKROBUS_CONNECTOR_1"); [|done]. simpl.
  destruct (find_target _ _ "MIKROBUS_CONNECTOR_2"); done.
Qed.

(** ** The overlap test *)

(** X5. For rectangles of positive size the validator's overlap test is
    exact: it fires exactly when some cell of the board lies both in the
    candidate rectangle and in the placed component.  Rectangles that only
    touch along an edge or at a corner do not overlap. *)
Theorem overlaps_placed_exact (component : Component.t) (x y : Z)
    (placed : Component.t) :
  0 < Component.width component → 0 < Component.height component →
  0 < Component.width placed → 0 < Component.height placed →
  overlaps_placed component x y placed = true
  ↔ ∃ px py,
      in_box x y (Component.width component) (Component.height component) px py
      ∧ in_component placed px py.
Proof.
  intros Hw Hh Hpw Hph. unfold in_component, in_box. split.
  - intros Ho. destruct (overlaps_placed component x y placed) eqn:E; [|done].
    assert (¬ (x >= Component.x placed + Component.width placed
               ∨ x + Component.width component <= Component.x placed
               ∨ y >= Component.y placed + Component.height placed
               ∨ y + Component.height component <= Component.y placed)) as Hn.
    { intros H%overlaps_placed_false. congruence. }
    exists (Z.max x (Component.x placed)), (Z.max y (Component.y placed)). lia.
  - intros (px & py & H1 & H2).
    destruct (overlaps_placed component x y placed) eqn:E; [done|].
    apply overlaps_placed_false in E. lia.
Qed.

(** ** Splitting *)

(** X6. When the placed box meets a free rectangle,
    [split_free_rectangle] returns at most four rectangles; each lies
    inside the free rectangle, has positive width and height if the free
    rectangle has, and shares no cell with the box; and together with the
    box they cover every cell of the free rectangle. *)
Theorem split_free_rectangle_spec (rect : Rectangle.t) (component : Component.t)
    (x y : Z) :
  intersects rect component x y = true →
  (length (split_free_rectangle rect component x y) <= 4)%nat
  ∧ (∀ s, s ∈ split_free_rectangle rect component x y →
       contains rect s = true
       ∧ (0 < Rectangle.width rect → 0 < Rectangle.height rect →
          0 < Rectangle.width s ∧ 0 < Rectangle.height s)
       ∧ ∀ px py,
           ¬ (in_rectangle s px py
              ∧ in_box x y (Component.width component)
                       (Component.height component) px py))
  ∧ (∀ px py, in_rectangle rect px py →
       in_box x y (Component.width component) (Component.height component) px py
       ∨ ∃ s, s ∈ split_free_rectangle rect component x y ∧ in_rectangle s px py).
Proof.
  intros Hi.
  assert (split_or_keep component x y rect = split_free_rectangle rect component x y)
    as Esk by (unfold split_or_keep; by rewrite Hi).
  split; [|split].
  - unfold split_free_rectangle. rewrite !length_app.
    repeat match goal with
           | |- context [if ?b then _ else _] => destruct b
           end; simpl; lia.
  - intros s Hs. split; [|split].
    + apply (split_or_keep_inside component x y). by rewrite Esk.
    + intros Hw Hh. apply intersects_spec in Hi.
      apply split_free_rectangle_elem in Hs.
      break_cases; subst; simpl; lia.
    + intros px py. apply (split_or_keep_avoids component x y rect). by rewrite Esk.
  - intros px py Hin. rewrite <- Esk. by apply split_or_keep_covers.
Qed.

(** ** More on pruning *)

Lemma prune_split_sublist (todo before : list Rectangle.t) :
  prune_split before todo `sublist_of` todo.
Proof.
  revert before. induction todo as [|r rest IH]; intros before; simpl.
  - constructor.
  - destruct (existsb _ _); [apply sublist_cons | apply sublist_skip]; apply IH.
Qed.

(** X7. Pruning only deletes: its result is the input list with some
    entries left out, in the same order, so it is never longer than the
    input. *)
Theorem remove_redundant_rectangles_sublist (rectangles : list Rectangle.t) :
  remove_redundant_rectangles rectangles `sublist_of` rectangles
  ∧ (length (remove_redundant_rectangles rectangles) <= length rectangles)%nat.
Proof.
  assert (remove_redundant_rectangles rectangles `sublist_of` rectangles) as H.
  { rewrite remove_redundant_rectangles_split. apply prune_split_sublist. }
  split; [done | by apply sublist_length].
Qed.

Lemma antichain_lookup (l : list Rectangle.t) (i j : nat) (a b : Rectangle.t) :
  antichain l → l !! i = Some a → l !! j = Some b → i ≠ j → contains b a = false.
Proof.
  revert i j. induction l as [|r l IH]; intros i j Hac Hi Hj Hne; [done|].
  destruct Hac as [Hr Hac].
  destruct i as [|i], j as [|j]; simpl in *; [done| | |].
  - injection Hi as ->. apply Hr. by eapply list_elem_of_lookup_2.
  - injection Hj as ->. apply Hr. by eapply list_elem_of_lookup_2.
  - apply (IH i j); auto.
Qed.

(** X8. After pruning, no rectangle of the list is contained in a
    rectangle at another position of the list, whatever the input was. *)
Theorem remove_redundant_rectangles_no_containment (rectangles : list Rectangle.t)
    (i j : nat) (a b : Rectangle.t) :
  remove_redundant_rectangles rectangles !! i = Some a →
  remove_redundant_rectangles rectangles !! j = Some b →
  i ≠ j →
  contains b a = false.
Proof.
  apply antichain_lookup, remove_redundant_rectangles_antichain.
Qed.

(** X9. On a list without repeated rectangles pruning loses no area: a
    cell lies in a rectangle of the input exactly when it lies in a
    rectangle of the output. *)
Theorem remove_redundant_rectangles_same_cells (rectangles : list Rectangle.t)
    (px py : Z) :
  NoDup rectangles →
  (∃ r, r ∈ rectangles ∧ in_rectangle r px py)
  ↔ (∃ r, r ∈ remove_redundant_rectangles rectangles ∧ in_rectangle r px py).
Proof.
  intros Hnd. split.
  - intros (r & Hr & Hin).
    destruct (remove_redundant_rectangles_covers rectangles r Hnd Hr) as (m & Hm & Hc).
    exists m. split; [done|]. by eapply contains_in_rectangle.
  - intros (r & Hr & Hin). exists r. split; [|done].
    by apply remove_redundant_rectangles_subset.
Qed.

(** X10. A rectangle survives pruning exactly when it stands at some
    position of the input where no rectangle at any other position
    contains it. *)
Theorem remove_redundant_rectangles_survivors (rectangles : list Rectangle.t)
    (r : Rectangle.t) :
  r ∈ remove_redundant_rectangles rectangles
  ↔ ∃ i, rectangles !! i = Some r
         ∧ ∀ j rect2, j ≠ i → rectangles !! j = Some rect2 →
                      contains rect2 r = false.
Proof.
  rewrite remove_redundant_rectangles_split, prune_split_elem. simpl. split.
  - intros (p & q & -> & H). exists (length p).
    split; [by apply list_lookup_middle|].
    intros j rect2 Hj Hl. eapply existsb_false in H; [exact H|].
    destruct (decide (j < length p)%nat).
    + rewrite lookup_app_l in Hl by done.
      apply elem_of_app. left. by eapply list_elem_of_lookup_2.
    + rewrite lookup_app_r in Hl by lia.
      destruct (j - length p)%nat as [|m] eqn:E; [lia|]. simpl in Hl.
      apply elem_of_app. right. by eapply list_elem_of_lookup_2.
  - intros (i & Hi & H). exists (take i rectangles), (drop (S i) rectangles).
    split; [by rewrite take_drop_middle|].
    apply existsb_false.
    intros rect2 [(j & Hj)%list_elem_of_lookup | (j & Hj)%list_elem_of_lookup]%elem_of_app.
    + apply lookup_take_Some in Hj as [Hj Hlt]. apply (H j); [lia | done].
    + rewrite lookup_drop in Hj. apply (H (S i + j)%nat); [lia | done].
Qed.

(** ** Effects of a successful placement *)

Lemma place_component_inv (heap : store) (self : PCBPlacer)
    (component : loc) (st' : (loc → Component.t) * PCBPlacer) :
  place_component heap self component = (true, st') →
  ∃ rect,
    rect ∈ free_rectangles self
    ∧ fits rect (heap component) = true
    ∧ is_position_valid heap self (heap component)
        (Rectangle.x rect) (Rectangle.y rect) = true
    ∧ st'.1 component
      = Component.set_position (Rectangle.x rect) (Rectangle.y rect) (heap component)
    ∧ placed_components st'.2 = placed_components self ++ [component]
    ∧ ∀ l, l ≠ component → st'.1 l = heap l.
Proof.
  rewrite place_component_unfold.
  destruct (found (choose heap self (heap component))) eqn:Hc; [|done].
  intros [= <-].
  destruct (choose_min heap self (heap component))
    as [[Hc' _] | (_ & h & Hh & E & F & _)]; [congruence|].
  destruct (heuristics_spec heap self (heap component) h Hh) as [key Hk].
  destruct (first_best_found _ _ _ _ _ _ Hk F) as (rect & Hr & Hcand & Ex & Ey & _).
  rewrite E in Ex, Ey. rewrite Ex, Ey.
  apply candidate_valid in Hcand as [Hfit Hv].
  exists rect. repeat (split; [done|]).
  split; [apply commit_self|]. split; [apply commit_placed|].
  intros l Hl. by apply commit_other.
Qed.

(** X11. A successful [place_component] puts the component at the
    top-left corner of a rectangle of the pool that is at least as large
    as the component, at a position the validator accepts; it appends the
    component to the placed list, writes only its position, and leaves
    every other component untouched. *)
Theorem place_component_success (heap : store) (self : PCBPlacer)
    (component : loc) (st' : (loc → Component.t) * PCBPlacer) :
  place_component heap self component = (true, st') →
  ∃ rect,
    rect ∈ free_rectangles self
    ∧ fits rect (heap component) = true
    ∧ is_position_valid heap self (heap component)
        (Rectangle.x rect) (Rectangle.y rect) = true
    ∧ st'.1 component
      = Component.set_position (Rectangle.x rect) (Rectangle.y rect) (heap component)
    ∧ placed_components st'.2 = placed_components self ++ [component]
    ∧ ∀ l, l ≠ component → st'.1 l = heap l.
Proof. apply place_component_inv. Qed.

(** ** The paired placement *)

(** X12. If the anchor cannot be placed, [force_mikrobus_placement]
    returns failure and changes nothing: the partner is not tried. *)
Theorem force_mikrobus_placement_anchor_failure (heap : store) (self : PCBPlacer)
    (mb1 mb2 : loc) :
  (place_component heap self mb1).1 = false →
  force_mikrobus_placement heap self mb1 mb2 = (false, (heap, self)).
Proof.
  intros Hf. rewrite force_mikrobus_placement_unfold, Hf.
  destruct (place_component_cases heap self mb1) as [-> | (x & y & _ & E)]; [done|].
  rewrite E in Hf. done.
Qed.

Lemma try_positions_first heap self mb2 positions st' :
  try_positions heap self mb2 positions = (true, st') →
  ∃ pre x y post,
    positions = pre ++ (x, y) :: post
    ∧ (∀ p, p ∈ pre → is_position_valid heap self (heap mb2) p.1 p.2 = false)
    ∧ is_position_valid heap self (heap mb2) x y = true
    ∧ st' = commit heap self mb2 x y.
Proof.
  induction positions as [|[x y] rest IH]; simpl; [done|].
  destruct (is_position_valid heap self (heap mb2) x y) eqn:Hv.
  - intros [= <-]. exists [], x, y, rest. repeat split; try done.
    intros p Hp. inversion Hp.
  - intros (pre & x' & y' & post & -> & Hpre & Hv' & ->)%IH.
    exists ((x, y) :: pre), x', y', post. repeat split; try done.
    intros p [->|Hp]%elem_of_cons; [done | by apply Hpre].
Qed.

(** X13. When [force_mikrobus_placement] succeeds, the anchor was placed
    by [place_component] and the partner sits at the first candidate, in
    the order of the candidate list, that the validator accepts in the
    state left by the anchor. *)
Theorem force_mikrobus_placement_first_valid (heap : store) (self : PCBPlacer)
    (mb1 mb2 : loc) (st' : (loc → Component.t) * PCBPlacer) :
  force_mikrobus_placement heap self mb1 mb2 = (true, st') →
  ∃ st1 pre x y post,
    place_component heap self mb1 = (true, st1)
    ∧ target_positions st1.2 (st1.1 mb1) = pre ++ (x, y) :: post
    ∧ (∀ p, p ∈ pre → is_position_valid st1.1 st1.2 (st1.1 mb2) p.1 p.2 = false)
    ∧ is_position_valid st1.1 st1.2 (st1.1 mb2) x y = true
    ∧ st'.1 mb2 = Component.set_position x y (st1.1 mb2)
    ∧ placed_components st'.2 = placed_components st1.2 ++ [mb2].
Proof.
  rewrite force_mikrobus_placement_unfold.
  destruct (place_component heap self mb1) as [ok [heap1 self1]] eqn:Hp.
  cbn [fst snd]. destruct ok; [|done].
  intros (pre & x & y & post & Ht & Hpre & Hv & ->)%try_positions_first.
  exists (heap1, self1), pre, x, y, post. cbn [fst snd].
  repeat (split; [done|]). split; [apply commit_self | apply commit_placed].
Qed.

(** X14. If the anchor is placed at a position that touches none of the
    four edges of the board, there is no candidate for the partner and
    [force_mikrobus_placement] fails, leaving the anchor placed. *)
Theorem force_mikrobus_placement_off_edge (heap : store) (self : PCBPlacer)
    (mb1 mb2 : loc) (st1 : (loc → Component.t) * PCBPlacer) :
  place_component heap self mb1 = (true, st1) →
  Component.x (st1.1 mb1) ≠ 0 →
  Component.x (st1.1 mb1) + Component.width (st1.1 mb1) ≠ board_width st1.2 →
  Component.y (st1.1 mb1) ≠ 0 →
  Component.y (st1.1 mb1) + Component.height (st1.1 mb1) ≠ board_height st1.2 →
  force_mikrobus_placement heap self mb1 mb2 = (false, st1).
Proof.
  intros Hp H1 H2 H3 H4. rewrite force_mikrobus_placement_unfold, Hp.
  cbn [fst snd]. unfold target_positions.
  apply Z.eqb_neq in H1, H2, H3, H4. rewrite H1, H2, H3, H4. simpl.
  by destruct st1.
Qed.

(** X15. The parallel check does not depend on the order of its two
    components. *)
Theorem check_mikrobus_parallel_constraint_sym (self : PCBPlacer)
    (mb1 mb2 : Component.t) :
  check_mikrobus_parallel_constraint self mb1 mb2
  = check_mikrobus_parallel_constraint self mb2 mb1.
Proof.
  unfold check_mikrobus_parallel_constraint.
  repeat match goal with
         | |- context [?a =? ?b] => destruct (a =? b)
         end; reflexivity.
Qed.

(** X16. On a board whose width and height exceed the partner's by
    exactly 45 (as the 50 by 50 board does for 5 by 5 connectors), a
    successful [force_mikrobus_placement] of two different objects leaves
    them on opposite edges: [check_mikrobus_parallel_constraint] accepts
    the pair. *)
Theorem force_mikrobus_placement_parallel (heap : store) (self : PCBPlacer)
    (mb1 mb2 : loc) (st' : (loc → Component.t) * PCBPlacer) :
  force_mikrobus_placement heap self mb1 mb2 = (true, st') →
  mb1 ≠ mb2 →
  board_width self - Component.width (heap mb2) = 45 →
  board_height self - Component.height (heap mb2) = 45 →
  check_mikrobus_parallel_constraint st'.2 (st'.1 mb1) (st'.1 mb2) = true.
Proof.
  intros Hf Hne Hw Hh. rewrite force_mikrobus_placement_unfold in Hf.
  destruct (place_component_cases heap self mb1) as [E | (x1 & y1 & _ & E)];
    rewrite E in Hf; cbn [fst snd] in Hf; [done|].
  apply try_positions_success in Hf as (x & y & Hin & _ & ->).
  rewrite commit_self, (commit_other _ _ mb2 x y mb1) by done.
  rewrite (commit_other heap self mb1 x1 y1 mb2) by done.
  set (a := (commit heap self mb1 x1 y1).1 mb1) in *.
  unfold target_positions in Hin.
  change (board_width (commit heap self mb1 x1 y1).2) with (board_width self) in Hin.
  change (board_height (commit heap self mb1 x1 y1).2) with (board_height self) in Hin.
  unfold check_mikrobus_parallel_constraint.
  change (board_width (commit (commit heap self mb1 x1 y1).1
                         (commit heap self mb1 x1 y1).2 mb2 x y).2)
    with (board_width self).
  change (board_height (commit (commit heap self mb1 x1 y1).1
                          (commit heap self mb1 x1 y1).2 mb2 x y).2)
    with (board_height self).
  simpl Component.x. simpl Component.y. simpl Component.width. simpl Component.height.
  destruct (Component.x a =? 0) eqn:E1;
    [|destruct (Component.x a + Component.width a =? board_width self) eqn:E2;
      [|destruct (Component.y a =? 0) eqn:E3;
        [|destruct (Component.y a + Component.height a =? board_height self) eqn:E4;
          [|inversion Hin]]]];
    apply list_elem_of_fmap in Hin as (v & [= -> ->] & _).
  all: simpl; try done.
  - replace (45 + Component.width (heap mb2) =? board_width self) with true
      by (symmetry; apply Z.eqb_eq; lia). done.
  - replace (45 + Component.height (heap mb2) =? board_height self) with true
      by (symmetry; apply Z.eqb_eq; lia). done.
Qed.

(** ** The pool stays on the board *)

Lemma split_or_keep_positive component x y (rect s : Rectangle.t) :
  s ∈ split_or_keep component x y rect →
  0 < Rectangle.width rect → 0 < Rectangle.height rect →
  0 < Rectangle.width s ∧ 0 < Rectangle.height s.
Proof.
  intros Hs%split_or_keep_cases Hw Hh.
  break_cases; subst; simpl; lia.
Qed.

Lemma update_free_rectangles_elem free component x y (r : Rectangle.t) :
  r ∈ update_free_rectangles free component x y →
  ∃ rect, rect ∈ free ∧ r ∈ split_or_keep component x y rect.
Proof.
  intros Hr%remove_redundant_rectangles_subset. by apply elem_of_flat_map in Hr.
Qed.

(** X17. After any sequence of calls on a fresh placer every free
    rectangle of the pool lies inside the board, and on a board of
    positive width and height it has positive width and height. *)
Theorem pool_rectangles_inside_board (board_width board_height : Z) (heap : store)
    (calls : list call) (r : Rectangle.t) :
  r ∈ free_rectangles (run calls (heap, init board_width board_height)).2 →
  inside_board (init board_width board_height) r
  ∧ (0 < board_width → 0 < board_height →
     0 < Rectangle.width r ∧ 0 < Rectangle.height r).
Proof.
  revert r.
  apply (run_commits
           (fun st => ∀ r, r ∈ free_rectangles st.2 →
              inside_board (init board_width board_height) r
              ∧ (0 < board_width → 0 < board_height →
                 0 < Rectangle.width r ∧ 0 < Rectangle.height r))).
  - intros h s l x y IH _ r (rect & Hrect & Hr)%update_free_rectangles_elem.
    destruct (IH rect Hrect) as [Hin Hpos]. split.
    + apply split_or_keep_inside, contains_spec in Hr.
      unfold inside_board in *. simpl in *. lia.
    + intros Hw Hh. destruct (Hpos Hw Hh).
      by eapply split_or_keep_positive.
  - intros r ->%list_elem_of_singleton. unfold inside_board. simpl. lia.
Qed.

(** ** Placements that cannot or must succeed *)

Lemma is_position_valid_oversized heap self component x y :
  board_width self < Component.width component
  ∨ board_height self < Component.height component →
  is_position_valid heap self component x y = false.
Proof.
  intros H. destruct (is_position_valid heap self component x y) eqn:E; [|done].
  apply is_position_valid_true in E. lia.
Qed.

(** X19. A component wider or taller than the board is never placed:
    [place_component] fails and leaves the state unchanged, whatever the
    pool and the placed list are. *)
Theorem place_component_oversized (heap : store) (self : PCBPlacer) (component : loc) :
  board_width self < Component.width (heap component)
  ∨ board_height self < Component.height (heap component) →
  place_component heap self component = (false, (heap, self)).
Proof.
  intros H.
  destruct (place_component_cases heap self component) as [E | (x & y & Hv & _)];
    [done|].
  rewrite is_position_valid_oversized in Hv; done.
Qed.

(** X20. On a fresh placer [place_component] succeeds exactly when the
    component is no larger than the board, whatever its constraints, and
    it then lands at the origin (0, 0). *)
Theorem place_component_fresh (board_width board_height : Z) (heap : store)
    (component : loc) :
  ((place_component heap (init board_width board_height) component).1 = true
   ↔ Component.width (heap component) <= board_width
     ∧ Component.height (heap component) <= board_height)
  ∧ ∀ st', place_component heap (init board_width board_height) component
           = (true, st') →
           Component.x (st'.1 component) = 0 ∧ Component.y (st'.1 component) = 0.
Proof.
  split.
  - split.
    + intros Hs. destruct (place_component heap (init board_width board_height) component)
        as [ok st'] eqn:E. simpl in Hs. subst ok.
      apply place_component_inv in E as (rect & _ & _ & Hv & _).
      apply is_position_valid_true in Hv. simpl in Hv. lia.
    + intros [Hw Hh].
      destruct (place_component heap (init board_width board_height) component).1 eqn:E;
        [done|].
      rewrite place_component_unfold in E.
      destruct (found (choose _ _ _)) eqn:Hc; [done|].
      destruct (choose_min heap (init board_width board_height) (heap component))
        as [[_ Hnone] | [Hc' _]]; [|congruence].
      specialize (Hnone _ in_heuristics_bssf).
      assert (found (find_best_position_bssf heap (init board_width board_height)
                       (heap component)) = true) as F; [|congruence].
      apply heuristics_found_iff; [apply in_heuristics_bssf|].
      exists (Rectangle.mk 0 0 board_width board_height). split; [left|].
      unfold candidate, fits, is_position_valid, on_edge, find_target. simpl.
      rewrite andb_false_r.
      replace (board_width >=? Component.width (heap component)) with true
        by (symmetry; apply Z.geb_le; lia).
      replace (board_height >=? Component.height (heap component)) with true
        by (symmetry; apply Z.geb_le; lia).
      replace (0 + Component.width (heap component) >? board_width) with false
        by (symmetry; rewrite Z.gtb_ltb; apply Z.ltb_ge; lia).
      replace (0 + Component.height (heap component) >? board_height) with false
        by (symmetry; rewrite Z.gtb_ltb; apply Z.ltb_ge; lia).
      simpl. by destruct (truthy _).
  - intros st' (rect & ->%list_elem_of_singleton & _ & _ & -> & _)%place_component_inv.
    done.
Qed.

(** X21. The three heuristics agree on whether a position exists: each
    finds one exactly when some pool rectangle is at least as large as the
    component and passes the validator at its top-left corner. *)
Theorem heuristics_agree (heap : store) (self : PCBPlacer) (component : Component.t) :
  found (find_best_position_bssf heap self component)
  = found (find_best_position_blsf heap self component)
  ∧ found (find_best_position_blsf heap self component)
    = found (find_best_position_baf heap self component)
  ∧ (found (find_best_position_bssf heap self component) = true
     ↔ ∃ rect, rect ∈ free_rectangles self
               ∧ candidate heap self component rect = true).
Proof.
  pose proof (heuristics_found_iff heap self component _ in_heuristics_bssf) as H1.
  pose proof (heuristics_found_iff heap self component _ in_heuristics_blsf) as H2.
  pose proof (heuristics_found_iff heap self component _ in_heuristics_baf) as H3.
  split; [|split; [|done]].
  - destruct (found (find_best_position_bssf _ _ _)),
             (found (find_best_position_blsf _ _ _)); try done.
    + discriminate (proj2 H2 (proj1 H1 eq_refl)).
    + discriminate (proj2 H1 (proj1 H2 eq_refl)).
  - destruct (found (find_best_position_blsf _ _ _)),
             (found (find_best_position_baf _ _ _)); try done.
    + discriminate (proj2 H3 (proj1 H2 eq_refl)).
    + discriminate (proj2 H2 (proj1 H3 eq_refl)).
Qed.

(** ** The further properties at concrete inputs *)

(** X3 on the demonstration after its first phase: the USB connector
    keeps its record through the remaining phases. *)
Lemma placed_never_moves_witness :
  NoDup (placed_components (run remaining_calls after_usb).2)
  ∧ ∀ l, l ∈ placed_components after_usb.2 →
         (run remaining_calls after_usb).1 l = after_usb.1 l.
Proof.
  apply (placed_never_moves remaining_calls after_usb).
  - vm_compute. reflexivity.
  - apply (bool_decide_unpack _). vm_compute. exact I.
Defined.

(** X4 on the demonstration run, whose verdict is [True]. *)
Lemma validate_all_constraints_reachable_witness :
  validate_all_constraints (run demo_calls (create_components, init 50 50)).1
                           (run demo_calls (create_components, init 50 50)).2
  = proximity_and_parallel (run demo_calls (create_components, init 50 50)).1
                           (run demo_calls (create_components, init 50 50)).2
  ∧ proximity_and_parallel (run demo_calls (create_components, init 50 50)).1
                           (run demo_calls (create_components, init 50 50)).2
    = Some true.
Proof.
  split.
  - apply (validate_all_constraints_reachable 50 50 create_components demo_calls).
    vm_compute. reflexivity.
  - vm_compute. reflexivity.
Defined.

(** X5 on a 5 by 5 candidate at (3, 3) against the USB connector at the
    origin. *)
Lemma overlaps_placed_exact_witness :
  overlaps_placed mikrobus1 3 3 usb = true
  ↔ ∃ px py, in_box 3 3 5 5 px py ∧ in_component usb px py.
Proof.
  apply (overlaps_placed_exact mikrobus1 3 3 usb); reflexivity.
Defined.

(** X6 on the whole 50 by 50 board and a 5 by 5 box at the origin. *)
Lemma split_free_rectangle_spec_witness :
  (length (split_free_rectangle (Rectangle.mk 0 0 50 50) usb 0 0) <= 4)%nat
  ∧ (∀ s, s ∈ split_free_rectangle (Rectangle.mk 0 0 50 50) usb 0 0 →
       contains (Rectangle.mk 0 0 50 50) s = true
       ∧ (0 < 50 → 0 < 50 → 0 < Rectangle.width s ∧ 0 < Rectangle.height s)
       ∧ ∀ px py, ¬ (in_rectangle s px py ∧ in_box 0 0 5 5 px py))
  ∧ (∀ px py, in_rectangle (Rectangle.mk 0 0 50 50) px py →
       in_box 0 0 5 5 px py
       ∨ ∃ s, s ∈ split_free_rectangle (Rectangle.mk 0 0 50 50) usb 0 0
              ∧ in_rectangle s px py).
Proof.
  apply (split_free_rectangle_spec (Rectangle.mk 0 0 50 50) usb 0 0). reflexivity.
Defined.

(** X8 on a list with a nested rectangle: the two survivors do not contain
    each other. *)
Lemma remove_redundant_rectangles_no_containment_witness :
  contains (Rectangle.mk 3 3 5 5) (Rectangle.mk 0 0 5 5) = false.
Proof.
  apply (remove_redundant_rectangles_no_containment nested_rectangles 0 1).
  - reflexivity.
  - reflexivity.
  - discriminate.
Defined.

(** X9 on the same list and the cell (1, 1) of the nested rectangle. *)
Lemma remove_redundant_rectangles_same_cells_witness :
  (∃ r, r ∈ nested_rectangles ∧ in_rectangle r 1 1)
  ↔ (∃ r, r ∈ remove_redundant_rectangles nested_rectangles ∧ in_rectangle r 1 1).
Proof.
  apply (remove_redundant_rectangles_same_cells nested_rectangles 1 1).
  apply (bool_decide_unpack _). vm_compute. exact I.
Defined.

(** X11 on the first phase of the demonstration. *)
Lemma place_component_success_witness :
  ∃ rect,
    rect ∈ free_rectangles (init 50 50)
    ∧ fits rect (create_components 0%nat) = true
    ∧ is_position_valid create_components (init 50 50) (create_components 0%nat)
        (Rectangle.x rect) (Rectangle.y rect) = true
    ∧ after_usb.1 0%nat
      = Component.set_position (Rectangle.x rect) (Rectangle.y rect)
          (create_components 0%nat)
    ∧ placed_components after_usb.2 = placed_components (init 50 50) ++ [0%nat]
    ∧ ∀ l, l ≠ 0%nat → after_usb.1 l = create_components l.
Proof.
  apply (place_component_success create_components (init 50 50) 0%nat after_usb).
  vm_compute. reflexivity.
Defined.

(** X12 with an anchor larger than the board. *)
Lemma force_mikrobus_placement_anchor_failure_witness :
  force_mikrobus_placement oversized (init 50 50) 0%nat 1%nat
  = (false, (oversized, init 50 50)).
Proof.
  apply (force_mikrobus_placement_anchor_failure oversized (init 50 50) 0%nat 1%nat).
  vm_compute. reflexivity.
Defined.

(** X13 on the second phase of the demonstration. *)
Lemma force_mikrobus_placement_first_valid_witness :
  ∃ st1 pre x y post,
    place_component after_usb.1 after_usb.2 1%nat = (true, st1)
    ∧ target_positions st1.2 (st1.1 1%nat) = pre ++ (x, y) :: post
    ∧ (∀ p, p ∈ pre → is_position_valid st1.1 st1.2 (st1.1 2%nat) p.1 p.2 = false)
    ∧ is_position_valid st1.1 st1.2 (st1.1 2%nat) x y = true
    ∧ (exec after_usb (PlacePair 1%nat 2%nat)).1 2%nat
      = Component.set_position x y (st1.1 2%nat)
    ∧ placed_components (exec after_usb (PlacePair 1%nat 2%nat)).2
      = placed_components st1.2 ++ [2%nat].
Proof.
  apply (force_mikrobus_placement_first_valid after_usb.1 after_usb.2 1%nat 2%nat
           (exec after_usb (PlacePair 1%nat 2%nat))).
  vm_compute. reflexivity.
Defined.

(** X14 with the 42 by 42 block as anchor: it lands at (5, 5), off every
    edge, and the pair fails. *)
Lemma force_mikrobus_placement_off_edge_witness :
  force_mikrobus_placement before_block.1 before_block.2 5%nat 4%nat
  = (false, (place_component before_block.1 before_block.2 5%nat).2).
Proof.
  apply (force_mikrobus_placement_off_edge before_block.1 before_block.2 5%nat 4%nat
           (place_component before_block.1 before_block.2 5%nat).2).
  - vm_compute. reflexivity.
  - vm_compute. discriminate.
  - vm_compute. discriminate.
  - vm_compute. discriminate.
  - vm_compute. discriminate.
Defined.

(** X16 on the second phase of the demonstration. *)
Lemma force_mikrobus_placement_parallel_witness :
  check_mikrobus_parallel_constraint
    (exec after_usb (PlacePair 1%nat 2%nat)).2
    ((exec after_usb (PlacePair 1%nat 2%nat)).1 1%nat)
    ((exec after_usb (PlacePair 1%nat 2%nat)).1 2%nat)
  = true.
Proof.
  apply (force_mikrobus_placement_parallel after_usb.1 after_usb.2 1%nat 2%nat
           (exec after_usb (PlacePair 1%nat 2%nat))).
  - vm_compute. reflexivity.
  - discriminate.
  - vm_compute. reflexivity.
  - vm_compute. reflexivity.
Defined.

(** X17 on a free rectangle of the demonstration's final pool. *)
Lemma pool_rectangles_inside_board_witness :
  inside_board (init 50 50) (Rectangle.mk 20 0 30 50)
  ∧ (0 < 50 → 0 < 50 → 0 < 30 ∧ 0 < 50).
Proof.
  apply (pool_rectangles_inside_board 50 50 create_components demo_calls
           (Rectangle.mk 20 0 30 50)).
  apply (bool_decide_unpack _). vm_compute. exact I.
Defined.


(** X19 on a 60 by 60 component and the 50 by 50 board. *)
Lemma place_component_oversized_witness :
  place_component oversized (init 50 50) 0%nat = (false, (oversized, init 50 50)).
Proof.
  apply (place_component_oversized oversized (init 50 50) 0%nat).
  left. reflexivity.
Defined.

(** ** The text picture *)

(** Decide every [bool_decide] of the goal from the hypotheses. *)
Ltac settle_bool_decide :=
  repeat match goal with
         | |- context [bool_decide ?P] =>
             first [ rewrite (bool_decide_eq_true_2 P)
                       by (rewrite ?elem_of_cons; intuition congruence)
                   | rewrite (bool_decide_eq_false_2 P)
                       by (rewrite ?elem_of_cons; intuition congruence) ]
         end.

Lemma elem_of_range a b z : z ∈ range a b ↔ a <= z < b.
Proof.
  unfold range. rewrite list_elem_of_fmap. setoid_rewrite elem_of_seq. split.
  - intros (i & -> & Hi). lia.
  - intros H. exists (Z.to_nat (z - a)). lia.
Qed.

Section Picture.

Variable placer : PCBPlacer.
Variables px py : Z.
Hypothesis px_range : 0 <= px < board_width placer.
Hypothesis py_range : 0 <= py < board_height placer.

Lemma set_cell_shape grid x y c :
  grid_shape placer grid → grid_shape placer (set_cell placer grid x y c).
Proof.
  intros [Hlen Hrows]. unfold set_cell.
  destruct (_ && _ && _ && _) eqn:Hg; [|done].
  destruct (grid !! Z.to_nat y) as [row|] eqn:Hy; [|done].
  split; [by rewrite length_insert|].
  intros i row' Hi. apply list_lookup_insert_Some in Hi as [(<- & <- & _) | [_ Hi]].
  - rewrite length_insert. by eapply Hrows.
  - by eapply Hrows.
Qed.

Lemma set_cell_at grid x y c :
  grid_shape placer grid →
  grid_at (set_cell placer grid x y c) px py
  = if bool_decide (x = px ∧ y = py) then Some c else grid_at grid px py.
Proof.
  intros [Hlen Hrows]. unfold set_cell.
  destruct (_ && _ && _ && _) eqn:Hg.
  - rewrite !andb_true_iff, !Z.leb_le, !Z.ltb_lt in Hg.
    destruct (lookup_lt_is_Some_2 grid (Z.to_nat y)) as [row Hrow]; [lia|].
    rewrite Hrow. unfold grid_at.
    destruct (decide (y = py)) as [->|Hy].
    + rewrite list_lookup_insert_eq by lia. simpl. rewrite Hrow. simpl.
      destruct (decide (x = px)) as [->|Hx].
      * rewrite bool_decide_eq_true_2 by done.
        apply list_lookup_insert_eq. rewrite (Hrows _ _ Hrow). lia.
      * rewrite bool_decide_eq_false_2 by (intros [? ?]; done).
        apply list_lookup_insert_ne. lia.
    + rewrite list_lookup_insert_ne by lia.
      by rewrite bool_decide_eq_false_2 by (intros [? ?]; done).
  - rewrite bool_decide_eq_false_2; [done|]. intros [-> ->].
    apply not_true_iff_false in Hg. apply Hg.
    rewrite !andb_true_iff, !Z.leb_le, !Z.ltb_lt. lia.
Qed.

Lemma paint_row_at xs grid y c :
  grid_shape placer grid →
  grid_shape placer (fold_left (fun g x => set_cell placer g x y c) xs grid)
  ∧ grid_at (fold_left (fun g x => set_cell placer g x y c) xs grid) px py
    = if bool_decide (px ∈ xs ∧ y = py) then Some c else grid_at grid px py.
Proof.
  revert grid. induction xs as [|x xs IH]; intros grid Hs; cbn [fold_left].
  - split; [done|]. rewrite bool_decide_eq_false_2; [done|].
    intros [H _]. inversion H.
  - destruct (IH (set_cell placer grid x y c)) as [Hs' Hat];
      [by apply set_cell_shape|].
    split; [done|]. rewrite Hat, set_cell_at by done.
    destruct (decide (y = py)); destruct (decide (px ∈ xs));
      destruct (decide (x = px)); settle_bool_decide; done.
Qed.

Lemma paint_rows_at ys xs grid c :
  grid_shape placer grid →
  grid_shape placer
    (fold_left (fun g y => fold_left (fun g x => set_cell placer g x y c) xs g) ys grid)
  ∧ grid_at
      (fold_left (fun g y => fold_left (fun g x => set_cell placer g x y c) xs g) ys grid)
      px py
    = if bool_decide (px ∈ xs ∧ py ∈ ys) then Some c else grid_at grid px py.
Proof.
  revert grid. induction ys as [|y ys IH]; intros grid Hs; cbn [fold_left].
  - split; [done|]. rewrite bool_decide_eq_false_2; [done|].
    intros [_ H]. inversion H.
  - destruct (paint_row_at xs grid y c Hs) as [Hs1 Hat1].
    destruct (IH _ Hs1) as [Hs2 Hat2].
    split; [done|]. rewrite Hat2, Hat1.
    destruct (decide (py = y)); destruct (decide (px ∈ xs));
      destruct (decide (py ∈ ys)); settle_bool_decide; done.
Qed.

Lemma covers_spec comp :
  covers comp px py = true ↔ in_component comp px py.
Proof.
  unfold covers, in_component, in_box.
  rewrite !andb_true_iff, !Z.leb_le, !Z.ltb_lt. tauto.
Qed.

Lemma paint_component_at grid comp :
  grid_shape placer grid →
  grid_shape placer (paint_component placer grid comp)
  ∧ grid_at (paint_component placer grid comp) px py
    = if covers comp px py then Some (component_chars (Component.name comp))
      else grid_at grid px py.
Proof.
  intros Hs. unfold paint_component.
  destruct (paint_rows_at
              (range (Component.y comp) (Component.y comp + Component.height comp))
              (range (Component.x comp) (Component.x comp + Component.width comp))
              grid (component_chars (Component.name comp)) Hs) as [Hs' Hat].
  split; [done|]. rewrite Hat.
  destruct (covers comp px py) eqn:Hc.
  - apply covers_spec in Hc. rewrite bool_decide_eq_true_2; [done|].
    rewrite !elem_of_range. unfold in_component, in_box in Hc. lia.
  - rewrite bool_decide_eq_false_2; [done|]. rewrite !elem_of_range. intros H.
    apply not_true_iff_false in Hc. apply Hc, covers_spec.
    unfold in_component, in_box. lia.
Qed.

Lemma paint_all_at comps grid ch :
  grid_shape placer grid →
  grid_at grid px py = Some ch →
  grid_shape placer (fold_left (paint_component placer) comps grid)
  ∧ grid_at (fold_left (paint_component placer) comps grid) px py
    = Some (shown_from ch comps px py).
Proof.
  revert grid ch. induction comps as [|comp comps IH]; intros grid ch Hs Hat; simpl.
  - done.
  - destruct (paint_component_at grid comp Hs) as [Hs' Hat'].
    apply IH; [done|]. rewrite Hat'. by destruct (covers comp px py).
Qed.

Lemma empty_grid_shape : grid_shape placer (empty_grid placer).
Proof.
  unfold empty_grid. split; [apply length_replicate|].
  intros i row [-> _]%lookup_replicate. apply length_replicate.
Qed.

Lemma empty_grid_at : grid_at (empty_grid placer) px py = Some "."%char.
Proof.
  unfold grid_at, empty_grid.
  rewrite lookup_replicate_2 by lia. simpl. apply lookup_replicate_2. lia.
Qed.

Lemma board_grid_at heap :
  grid_at (board_grid heap placer) px py
  = Some (shown_from "."%char (map heap (placed_components placer)) px py).
Proof.
  unfold board_grid. apply paint_all_at; [apply empty_grid_shape | apply empty_grid_at].
Qed.

Lemma shown_from_none ch comps :
  (∀ c, c ∈ comps → covers c px py = false) → shown_from ch comps px py = ch.
Proof.
  unfold shown_from. revert ch. induction comps as [|c comps IH]; intros ch H; simpl; [done|].
  rewrite (H c) by left. apply IH. intros c' Hc'. apply H. by right.
Qed.

Lemma shown_from_app ch comps1 comps2 :
  shown_from ch (comps1 ++ comps2) px py
  = shown_from (shown_from ch comps1 px py) comps2 px py.
Proof. unfold shown_from. apply fold_left_app. Qed.

Lemma no_overlap_covers (a b : Component.t) :
  no_overlap a b = true → covers a px py = true → covers b px py = false.
Proof.
  unfold no_overlap. rewrite !orb_true_iff, !Z.geb_le, !Z.leb_le.
  intros Hsep Ha%covers_spec. destruct (covers b px py) eqn:Hb; [|done].
  apply covers_spec in Hb. unfold in_component, in_box in *. lia.
Qed.

(** When the overlap section passes, a component that has the cell is the
    only one, at any position of the list, that has it. *)
Lemma overlap_check_covers pre c post :
  overlap_check (pre ++ c :: post) = true →
  covers c px py = true →
  ∀ c', c' ∈ pre ++ post → covers c' px py = false.
Proof.
  induction pre as [|a pre IH]; simpl.
  - rewrite andb_true_iff, forallb_forall. intros [Hc _] Hcov c' Hc'.
    apply (no_overlap_covers c c'); [|done]. apply Hc. by apply list_elem_of_In.
  - rewrite andb_true_iff, forallb_forall. intros [Ha Hrest] Hcov c' Hc'.
    apply elem_of_cons in Hc' as [Heq|Hc']; [subst a|by apply IH].
    destruct (covers c' px py) eqn:E; [|done].
    rewrite <- Hcov. apply (no_overlap_covers c' c); [|done].
    apply Ha, list_elem_of_In, elem_of_app. right. left.
Qed.

Lemma shown_from_unique comps c :
  overlap_check comps = true → c ∈ comps → covers c px py = true →
  shown_from "."%char comps px py = component_chars (Component.name c).
Proof.
  intros Ho (pre & post & ->)%list_elem_of_split Hc.
  pose proof (overlap_check_covers pre c post Ho Hc) as Hnone.
  rewrite shown_from_app. simpl. unfold shown_from at 1. simpl. rewrite Hc.
  apply shown_from_none. intros c' Hc'. apply Hnone, elem_of_app. by right.
Qed.

End Picture.

(** X22. In a state whose placed components pass the overlap section of
    [validate_all_constraints], the grid drawn by
    [print_board_visualization] shows, in every cell of the board, the
    character of the placed component whose rectangle has the cell, and a
    dot when no placed component has it. *)
Theorem board_grid_shows_components (heap : store) (placer : PCBPlacer) (px py : Z) :
  overlap_check (map heap (placed_components placer)) = true →
  0 <= px < board_width placer →
  0 <= py < board_height placer →
  (∀ l, l ∈ placed_components placer → covers (heap l) px py = true →
        grid_at (board_grid heap placer) px py
        = Some (component_chars (Component.name (heap l))))
  ∧ ((∀ l, l ∈ placed_components placer → covers (heap l) px py = false) →
     grid_at (board_grid heap placer) px py = Some "."%char).
Proof.
  intros Ho Hpx Hpy. rewrite board_grid_at by done. split.
  - intros l Hl Hc. f_equal.
    apply (shown_from_unique placer px py Hpx Hpy); [done | | done].
    apply list_elem_of_fmap. by exists l.
  - intros Hnone. f_equal. apply shown_from_none.
    intros c (l & -> & Hl)%list_elem_of_fmap. by apply Hnone.
Qed.

Lemma get_string_of_list_ascii (l : list ascii) (n : nat) :
  String.get n (String.string_of_list_ascii l) = l !! n.
Proof.
  revert n. induction l as [|a l IH]; intros n; simpl; [by destruct n|].
  destruct n as [|n]; [done | apply IH].
Qed.

Lemma length_string_of_list_ascii (l : list ascii) :
  String.length (String.string_of_list_ascii l) = length l.
Proof. induction l as [|a l IH]; simpl; [done | by rewrite IH]. Qed.

Lemma rows_count (b : Z) (k : nat) :
  5 * Z.of_nat k < b → (k < Z.to_nat ((b + 4) / 5))%nat.
Proof.
  intros Hk.
  assert (Z.of_nat k + 1 <= (b + 4) / 5) by (apply Z.div_le_lower_bound; lia).
  lia.
Qed.

Lemma range_by_5_lookup (b : Z) (k : nat) :
  5 * Z.of_nat k < b → range_by_5 b !! k = Some (5 * Z.of_nat k).
Proof.
  intros Hk%rows_count. unfold range_by_5.
  change (map ?f ?l) with (f <$> l). rewrite list_lookup_fmap.
  rewrite lookup_seq_lt by done. done.
Qed.

(** X23. [print_board_visualization] prints two heading lines, a border,
    one line for each row of the grid whose index is a multiple of 5, and
    a border: rows between two multiples of 5 are never shown.  In the
    line of row 5k, between the two bars, column px shows the grid cell
    (px, 5k). *)
Theorem print_board_visualization_rows (heap : store) (placer : PCBPlacer) :
  length (print_board_visualization heap placer)
  = (4 + Z.to_nat ((board_height placer + 4) / 5))%nat
  ∧ ∀ (k : nat) (px : Z),
      0 <= px < board_width placer →
      5 * Z.of_nat k < board_height placer →
      ∃ line,
        print_board_visualization heap placer !! (3 + k)%nat = Some line
        ∧ String.get (S (Z.to_nat px)) line
          = grid_at (board_grid heap placer) px (5 * Z.of_nat k).
Proof.
  split.
  - unfold print_board_visualization, range_by_5.
    rewrite !length_app, !length_map, length_seq. simpl. lia.
  - intros k px Hpx Hk.
    assert (0 <= 5 * Z.of_nat k < board_height placer) as Hpy by lia.
    destruct (paint_all_at placer px (5 * Z.of_nat k) Hpx Hpy
                (map heap (placed_components placer)) (empty_grid placer) "."%char
                (empty_grid_shape placer)
                (empty_grid_at placer px (5 * Z.of_nat k) Hpx Hpy))
      as [[Hlen Hrows] _].
    fold (board_grid heap placer) in Hlen, Hrows.
    destruct (lookup_lt_is_Some_2 (board_grid heap placer) (Z.to_nat (5 * Z.of_nat k)))
      as [row Hrow]; [lia|].
    pose proof (Hrows _ _ Hrow) as Hw.
    eexists. split.
    + unfold print_board_visualization.
      rewrite lookup_app_r by (simpl; lia).
      replace (3 + k - _)%nat with k by (simpl; lia).
      change (map ?f ?l) with (f <$> l).
      rewrite lookup_app_l.
      * rewrite list_lookup_fmap, range_by_5_lookup by done. reflexivity.
      * rewrite length_fmap. unfold range_by_5. rewrite length_map, length_seq.
        by apply rows_count.
    + unfold grid_at. rewrite !Hrow. simpl.
      rewrite <- (String.append_correct1 (String.string_of_list_ascii row) "|")
        by (rewrite length_string_of_list_ascii; lia).
      apply get_string_of_list_ascii.
Qed.

(** X22 on the demonstration: cell (12, 3) lies in the microcontroller and
    shows its character. *)
Lemma board_grid_shows_components_witness :
  grid_at (board_grid (run demo_calls (create_components, init 50 50)).1
                      (run demo_calls (create_components, init 50 50)).2) 12 3
  = Some "M"%char.
Proof.
  apply (proj1 (board_grid_shows_components
                  (run demo_calls (create_components, init 50 50)).1
                  (run demo_calls (create_components, init 50 50)).2 12 3
                  ltac:(vm_compute; reflexivity)
                  ltac:(split; vm_compute; [discriminate | reflexivity])
                  ltac:(split; vm_compute; [discriminate | reflexivity]))
               3%nat).
  - apply (bool_decide_unpack _). vm_compute. exact I.
  - vm_compute. reflexivity.
Defined.

(** The picture of the demonstration: only rows 0, 5, ..., 45 are printed,
    so the connector at (0, 45) appears in the last one. *)
Example print_board_visualization_demo :
  print_board_visualization (run demo_calls (create_components, init 50 50)).1
                            (run demo_calls (create_components, init 50 50)).2
  = ["\n=== Board Layout (50x50) ===";
     "Legend: U=USB, M=Microcontroller, C=Crystal, 1=MikroBus1, 2=MikroBus2, .=Empty";
     "+--------------------------------------------------+";
     "|UUUUU11111MMMMMCCCCC..............................|";
     "|..................................................|";
     "|..................................................|";
     "|..................................................|";
     "|..................................................|";
     "|..................................................|";
     "|..................................................|";
     "|..................................................|";
     "|..................................................|";
     "|22222.............................................|";
     "+--------------------------------------------------+"]%string.
Proof. vm_compute. reflexivity. Qed.

(** X24 on the demonstration run. *)
Lemma run_never_raises_witness :
  run_raises demo_calls (create_components, init 50 50) = false.
Proof.
  apply (run_never_raises 50 50 create_components demo_calls); [lia | lia |].
  intros l. do 5 (destruct l as [|l]; [simpl; lia|]). simpl. lia.
Defined.
